(** * mitee-lqr: the LQR controller of [controller.c]

    A shallow embedding of [src/controller.c] over MathComp matrices.

    - A C [double] is read as an element of an ordered field [F]
      (exact arithmetic: rounding, infinities and NaN are not modelled).
      The one operation of the file that has no field counterpart, a
      division whose divisor may be zero, is a field of the kernel
      interface below and is only specified for a nonzero divisor.
    - A [gsl_matrix] of fixed size is a ['M[F]_(m, n)], a [gsl_vector]
      a column ['cV[F]_n]; a matrix view obtained with
      [gsl_matrix_submatrix] is a block of a block matrix.
    - GSL itself is not part of the repository: the routines whose result
      is not determined by the field operations (LU decomposition and
      inversion, the matrix exponential, the contents of freshly allocated
      memory) are the fields of [gsl_kernel].  [controller.c] never reads
      the status a GSL routine returns, and never replaces the error
      handler of GSL: a routine that raises an error calls the default
      handler, which aborts the process.  The functions below give the
      state a call leaves when the routines it calls raise no error;
      [invert_call] is the call of [invert] with that error path, the only
      one the routines of the file have on square matrices of matching
      sizes.
    - Every function of the file returns [void] and mutates the
      [Controller] behind its pointer and its own [static] matrices: the
      model passes the controller and one record of statics per function,
      [None] standing for the initial [NULL] pointers.
    - The [do ... while] loop of [runNewtonRaphsonProcess] has no bound: it
      is run with a fuel, [None] meaning that the loop is still running
      when the fuel is spent. *)

From Stdlib Require Import BinNums BinPosDef.
From HB Require Import structures.
From mathcomp Require Import boot order algebra.

Set Implicit Arguments.
Unset Strict Implicit.
Unset Printing Implicit Defensive.

Import GRing.Theory Num.Theory Order.Theory.
Local Open Scope ring_scope.

(** ** Status codes and outcomes *)

(** The status a GSL routine returns ([gsl_errno.h]); only the two values
    the LU routines can return are needed. *)
Inductive gsl_status := GSL_SUCCESS | GSL_EDOM.

(** The error taxonomy of the specification. *)
Inductive LqrError :=
  | ConfigurationError
  | SingularMatrixError
  | ConvergenceError
  | DegenerateInputError.

(** What the caller of a C function can observe: the function returned
    and left a state behind, or it reported an error; or nothing, the
    process having been aborted by the error handler of GSL, called with
    the status. *)
Inductive outcome (A : Type) :=
  | Returned (a : A)
  | Raised (e : LqrError)
  | Aborted (status : gsl_status).
Arguments Raised {A} e.
Arguments Aborted {A} status.

(** A call to a [void] function of [controller.c]: none of them has a
    return value, an error flag, or a path that leaves the function early,
    so that the caller always observes the state the body computes (an
    error raised inside a GSL routine apart: see [invert_call]). *)
Definition call_void {A B : Type} (f : A -> B) (a : A) : outcome B :=
  Returned (f a).

(** ** Numeric literals *)

Section Literals.
Variable F : realFieldType.

(** A binary positive number read in [F]. *)
Fixpoint of_pos (p : positive) : F :=
  match p with
  | xH => 1
  | xO q => 2 * of_pos q
  | xI q => 2 * of_pos q + 1
  end.

(** [sci m e] is the decimal literal [m]e-[e]. *)
Definition sci (m : positive) (e : nat) : F := of_pos m / 10 ^+ e.

End Literals.

(** ** The linear-algebra kernel (GSL) *)

(** What [gsl_linalg_LU_decomp (LU, p, &signum)] leaves behind: the
    decomposition written over [LU], the [gsl_permutation], the sign of
    the permutation, and the status it returns. *)
Record LU_result (F : realFieldType) (n : nat) := LUResult {
  LU_matrix : 'M[F]_n;
  LU_permutation : seq nat;
  LU_signum : int;
  LU_status : gsl_status
}.

Record gsl_kernel (F : realFieldType) := GslKernel {
  (** [x / y] on doubles *)
  double_div : F -> F -> F;
  (** [gsl_matrix_alloc (m, n)]: the contents of fresh memory *)
  gsl_matrix_alloc : forall m n : nat, 'M[F]_(m, n);
  (** [gsl_linalg_LU_decomp (LU, p, &signum)] *)
  gsl_linalg_LU_decomp : forall n : nat, 'M[F]_n -> LU_result F n;
  (** [gsl_linalg_LU_invert (LU, p, inv)]: the new contents of [inv] and
      the status it returns *)
  gsl_linalg_LU_invert :
    forall n : nat, 'M[F]_n -> seq nat -> 'M[F]_n -> 'M[F]_n * gsl_status;
  (** [gsl_linalg_exponential_ss (A, eA, GSL_PREC_DOUBLE)] *)
  gsl_linalg_exponential_ss : 'M[F]_6 -> 'M[F]_6;
  (** the contracts of division and of LU inversion, where the field
      defines the result *)
  double_divE : forall x y : F, y != 0 -> double_div x y = x / y;
  LU_invertE : forall (n : nat) (A inv0 : 'M[F]_n), A \in unitmx ->
    (gsl_linalg_LU_invert
       (LU_matrix (gsl_linalg_LU_decomp A))
       (LU_permutation (gsl_linalg_LU_decomp A)) inv0).1 = invmx A
}.

(** What the two LU routines report on a square matrix, with a
    permutation and an inverse of matching sizes.  [gsl_linalg_LU_decomp]
    has errors for wrong shapes only and reports success.
    [gsl_linalg_LU_invert] looks for a zero on the diagonal of U before it
    computes anything and, when there is one, raises [GSL_EDOM] (matrix is
    singular) through [GSL_ERROR]; in exact arithmetic there is one when,
    and only when, the matrix is singular. *)
Record gsl_status_kernel (F : realFieldType) (gsl : gsl_kernel F) : Type :=
  GslStatusKernel {
  LU_decomp_status : forall (n : nat) (A : 'M[F]_n),
    LU_status (gsl_linalg_LU_decomp gsl A) = GSL_SUCCESS;
  LU_invert_status : forall (n : nat) (A inv0 : 'M[F]_n),
    (gsl_linalg_LU_invert gsl
       (LU_matrix (gsl_linalg_LU_decomp gsl A))
       (LU_permutation (gsl_linalg_LU_decomp gsl A)) inv0).2
    = if A \in unitmx then GSL_SUCCESS else GSL_EDOM
}.

(** ** GSL and BLAS routines determined by the field operations *)

Section Gsl.
Variable F : realFieldType.

(** [memcpy (m->data, a, rows * cols * sizeof (double))]: a row-major array
    copied over the data of a matrix. *)
Definition memcpy_matrix (m n : nat) (a : seq F) : 'M[F]_(m, n) :=
  \matrix_(i < m, j < n) nth 0 a (i * n + j).

Definition memcpy_vector (n : nat) (a : seq F) : 'cV[F]_n :=
  \col_(i < n) nth 0 a i.

Definition gsl_vector_get (n : nat) (v : 'cV[F]_n) (i : 'I_n) : F := v i 0.

Definition gsl_matrix_get (m n : nat) (a : 'M[F]_(m, n)) i j : F := a i j.

Definition gsl_matrix_memcpy (m n : nat) (dest src : 'M[F]_(m, n)) :
  'M[F]_(m, n) := src.

Definition gsl_matrix_transpose_memcpy (m n : nat) (dest : 'M[F]_(n, m))
  (src : 'M[F]_(m, n)) : 'M[F]_(n, m) := src^T.

Definition gsl_matrix_scale (m n : nat) (a : 'M[F]_(m, n)) (x : F) :
  'M[F]_(m, n) := x *: a.

Definition gsl_matrix_add (m n : nat) (a b : 'M[F]_(m, n)) : 'M[F]_(m, n) :=
  a + b.

Definition gsl_matrix_sub (m n : nat) (a b : 'M[F]_(m, n)) : 'M[F]_(m, n) :=
  a - b.

Definition gsl_matrix_set_identity (n : nat) (a : 'M[F]_n) : 'M[F]_n := 1%:M.

Definition gsl_matrix_set_zero (m n : nat) (a : 'M[F]_(m, n)) :
  'M[F]_(m, n) := 0.

(** [gsl_blas_ddot (x, y, &result)] *)
Definition gsl_blas_ddot (n : nat) (x y : 'cV[F]_n) : F :=
  \sum_(i < n) x i 0 * y i 0.

(** [gsl_blas_dgemm (TransA, TransB, alpha, A, B, beta, C)] overwrites [C]
    with [alpha * op(A) * op(B) + beta * C]; one definition per pair of
    flags the file uses, since the flags change the shapes. *)
Definition gsl_blas_dgemm_NN (m k n : nat) (alpha : F) (A : 'M[F]_(m, k))
  (B : 'M[F]_(k, n)) (beta : F) (C : 'M[F]_(m, n)) : 'M[F]_(m, n) :=
  alpha *: (A *m B) + beta *: C.

Definition gsl_blas_dgemm_NT (m k n : nat) (alpha : F) (A : 'M[F]_(m, k))
  (B : 'M[F]_(n, k)) (beta : F) (C : 'M[F]_(m, n)) : 'M[F]_(m, n) :=
  alpha *: (A *m B^T) + beta *: C.

Definition gsl_blas_dgemm_TN (m k n : nat) (alpha : F) (A : 'M[F]_(k, m))
  (B : 'M[F]_(k, n)) (beta : F) (C : 'M[F]_(m, n)) : 'M[F]_(m, n) :=
  alpha *: (A^T *m B) + beta *: C.

(** [gsl_blas_dgemv (CblasNoTrans, alpha, A, x, beta, y)] *)
Definition gsl_blas_dgemv_N (m n : nat) (alpha : F) (A : 'M[F]_(m, n))
  (x : 'cV[F]_n) (beta : F) (y : 'cV[F]_m) : 'cV[F]_m :=
  alpha *: (A *m x) + beta *: y.

(** [fabs] *)
Definition fabs (x : F) : F := `|x|.

End Gsl.

(** ** The controller *)

(** [struct Controller] ([controller.h]); the fields and their sizes are
    those [initializeController] allocates. *)
Record Controller (F : realFieldType) := mkController {
  (* constant state parameters *)
  A_c : 'M[F]_6;
  A_d : 'M[F]_6;
  Q : 'M[F]_6;
  R : 'M[F]_3;
  J : 'M[F]_3;
  (* dynamic state parameters *)
  x : 'cV[F]_6;
  u : 'cV[F]_3;
  b : 'cV[F]_3;
  bmat : 'M[F]_3;
  B_c : 'M[F]_(3 + 3, 3);
  B_d : 'M[F]_(3 + 3, 3);
  P : 'M[F]_6;
  K : 'M[F]_(3, 6);
  (* identity and zero matrices *)
  I_6 : 'M[F]_6;
  Zero_6 : 'M[F]_6;
  Zero_3 : 'M[F]_3
}.

(** The values the external sensor functions ([external.h]) write through
    their three pointers on one call each. *)
Record Sensors (F : realFieldType) := mkSensors {
  getAngularPosition : F * F * F;
  getAngularVelocity : F * F * F;
  getMagneticField : F * F * F
}.

(** ** The [static] matrices of each function

    One record per function, named after it; the fields are its [static]
    pointers.  A function tests its first pointer against [NULL] and
    allocates all of them together, so that the statics of a function are
    an [option] of its record. *)

Module ComputeBMatrices.
Record statics (F : realFieldType) := Statics {
  J_inv : 'M[F]_3;
  quotient : 'M[F]_3;
  J_inv_quotient : 'M[F]_3;
  A_c_inv : 'M[F]_6;
  I_minus_A_d : 'M[F]_6;
  transform : 'M[F]_6
}.
End ComputeBMatrices.

Module ComputePMatrix.
Record statics (F : realFieldType) := Statics {
  negativeQ : 'M[F]_6;
  N : 'M[F]_(6 + 6);
  R_inverse : 'M[F]_3;
  Rinv_BdT : 'M[F]_(3, 3 + 3);
  Bd_Rinv_BdT : 'M[F]_6;
  A_d_transpose : 'M[F]_6;
  L : 'M[F]_(6 + 6);
  N_plus_L : 'M[F]_(6 + 6);
  N_plus_L_inverse : 'M[F]_(6 + 6);
  N_minus_L : 'M[F]_(6 + 6);
  H : 'M[F]_(6 + 6);
  S : 'M[F]_(6 + 6);
  X1_inverse : 'M[F]_6
}.
End ComputePMatrix.

Module RunNewtonRaphsonProcess.
Record statics (F : realFieldType) := Statics {
  S_prev : 'M[F]_(6 + 6);
  S_inverse : 'M[F]_(6 + 6);
  H_squared : 'M[F]_(6 + 6)
}.
End RunNewtonRaphsonProcess.

Module ComputeGainMatrix.
Record statics (F : realFieldType) := Statics {
  P_Ad : 'M[F]_6;
  BdT_P_Ad : 'M[F]_(3, 6);
  P_Bd : 'M[F]_(3 + 3, 3);
  BdT_P_Bd : 'M[F]_3;
  R_plus_BdT_P_Bd : 'M[F]_3;
  R_plus_BdT_P_Bd_inv : 'M[F]_3
}.
End ComputeGainMatrix.

Section Controller.
Variable F : realFieldType.
Variable gsl : gsl_kernel F.

Local Notation Controller := (Controller F).
Local Notation "a ./ b" := (double_div gsl a b) (at level 40, left associativity).

(** Assignments through [cntl->field->data]. *)
Definition set_x (c : Controller) (v : 'cV[F]_6) : Controller :=
  mkController (A_c c) (A_d c) (Q c) (R c) (J c) v (u c) (b c) (bmat c)
    (B_c c) (B_d c) (P c) (K c) (I_6 c) (Zero_6 c) (Zero_3 c).
Definition set_u (c : Controller) (v : 'cV[F]_3) : Controller :=
  mkController (A_c c) (A_d c) (Q c) (R c) (J c) (x c) v (b c) (bmat c)
    (B_c c) (B_d c) (P c) (K c) (I_6 c) (Zero_6 c) (Zero_3 c).
Definition set_b (c : Controller) (v : 'cV[F]_3) : Controller :=
  mkController (A_c c) (A_d c) (Q c) (R c) (J c) (x c) (u c) v (bmat c)
    (B_c c) (B_d c) (P c) (K c) (I_6 c) (Zero_6 c) (Zero_3 c).
Definition set_bmat (c : Controller) (m : 'M[F]_3) : Controller :=
  mkController (A_c c) (A_d c) (Q c) (R c) (J c) (x c) (u c) (b c) m
    (B_c c) (B_d c) (P c) (K c) (I_6 c) (Zero_6 c) (Zero_3 c).
Definition set_B_c (c : Controller) (m : 'M[F]_(3 + 3, 3)) : Controller :=
  mkController (A_c c) (A_d c) (Q c) (R c) (J c) (x c) (u c) (b c) (bmat c)
    m (B_d c) (P c) (K c) (I_6 c) (Zero_6 c) (Zero_3 c).
Definition set_B_d (c : Controller) (m : 'M[F]_(3 + 3, 3)) : Controller :=
  mkController (A_c c) (A_d c) (Q c) (R c) (J c) (x c) (u c) (b c) (bmat c)
    (B_c c) m (P c) (K c) (I_6 c) (Zero_6 c) (Zero_3 c).
Definition set_P (c : Controller) (m : 'M[F]_6) : Controller :=
  mkController (A_c c) (A_d c) (Q c) (R c) (J c) (x c) (u c) (b c) (bmat c)
    (B_c c) (B_d c) m (K c) (I_6 c) (Zero_6 c) (Zero_3 c).
Definition set_K (c : Controller) (m : 'M[F]_(3, 6)) : Controller :=
  mkController (A_c c) (A_d c) (Q c) (R c) (J c) (x c) (u c) (b c) (bmat c)
    (B_c c) (B_d c) (P c) m (I_6 c) (Zero_6 c) (Zero_3 c).

(** *** The constants of the file *)

(* Approximate inertias for MiTEE-2 [kg*m^2] *)
Definition J1 : F := sci F 3196587857%positive 11.     (* 3.196587857e-2 *)
Definition J2 : F := sci F 3229090604%positive 11.     (* 3.229090604e-2 *)
Definition J3 : F := sci F 702534780%positive 11.      (* 7.02534780e-3 *)
(* Discrete time step [s] *)
Definition DT : F := 4.
(* Mean motion of satellite orbit [rad/s] *)
Definition MEAN_MOTION : F := sci F 1144035952968%positive 15.  (* 1.144035952968e-3 *)
(* Error tolerance of Newton-Raphson calculation *)
Definition NR_TOLERANCE : F := sci F 1%positive 3.     (* 1e-3 *)
(* Q and R matrix costs *)
Definition POS_COST : F := sci F 15%positive 8.        (* 1.5e-7 *)
Definition VEL_COST : F := sci F 15%positive 4.        (* 1.5e-3 *)
Definition INPUT_COST : F := 10 ^+ 7.         (* 1e7 *)

(** *** [initializeController] *)

Definition initializeController (cntl : Controller) : Controller :=
  (* every pointer of [cntl] is overwritten with a fresh matrix *)
  let alloc := gsl_matrix_alloc gsl in
  let n := MEAN_MOTION in
  let J12 := (J1 - J2) ./ J3 in
  let J23 := (J2 - J3) ./ J1 in
  let J31 := (J3 - J1) ./ J2 in
  let A_c_ := memcpy_matrix 6 6
    [:: 0;               0;               n; 1;        0; 0;
        0;               0;               0; 0;        1; 0;
        - n;             0;               0; 0;        0; 1;
        - 3 * n * n * J23; 0;             0; 0;        0; - n * J23;
        0;               3 * n * n * J31; 0; 0;        0; 0;
        0;               0;               0; - n * J12; 0; 0] in
  (* A_d = e^(A_c * dt) *)
  let A_d_ := gsl_matrix_memcpy (alloc 6 6) A_c_ in
  let A_d_ := gsl_matrix_scale A_d_ DT in
  let A_d_ := gsl_linalg_exponential_ss gsl A_d_ in
  let Q_ := memcpy_matrix 6 6
    [:: POS_COST; 0;        0;        0;        0;        0;
        0;        POS_COST; 0;        0;        0;        0;
        0;        0;        POS_COST; 0;        0;        0;
        0;        0;        0;        VEL_COST; 0;        0;
        0;        0;        0;        0;        VEL_COST; 0;
        0;        0;        0;        0;        0;        VEL_COST] in
  let R_ := memcpy_matrix 3 3
    [:: INPUT_COST; 0;          0;
        0;          INPUT_COST; 0;
        0;          0;          INPUT_COST] in
  let J_ := memcpy_matrix 3 3
    [:: J1; 0;  0;
        0;  J2; 0;
        0;  0;  J3] in
  mkController A_c_ A_d_ Q_ R_ J_
    (alloc 6 1) (alloc 3 1) (alloc 3 1) (alloc 3 3)
    (alloc (3 + 3)%N 3) (alloc (3 + 3)%N 3) (alloc 6 6) (alloc 3 6)
    (gsl_matrix_set_identity (alloc 6 6))
    (gsl_matrix_set_zero (alloc 6 6))
    (gsl_matrix_set_zero (alloc 3 3)).

(** *** [updateSensors] *)

Definition updateSensors (env : Sensors F) (cntl : Controller) : Controller :=
  let: (x0, x1, x2) := getAngularPosition env in
  let: (x3, x4, x5) := getAngularVelocity env in
  let: (b0, b1, b2) := getMagneticField env in
  let x_ := [:: x0; x1; x2; x3; x4; x5] in
  let b_ := [:: b0; b1; b2] in
  (* x should be difference from nominal equilibrium point *)
  let x_ := set_nth 0 x_ 4 (nth 0 x_ 4 + MEAN_MOTION) in
  let cntl := set_x cntl (memcpy_vector 6 x_) in
  set_b cntl (memcpy_vector 3 b_).

(** *** Helpers: [concatenate2x2], [concatenate_vertical], [invert] *)

(** The four views tile [result], whose previous contents are overwritten:
    [a] at (0, 0), [b] at (0, a->size2), [c] at (a->size1, 0) and [d] at
    (a->size1, a->size2). *)
Definition concatenate2x2 (m1 m2 n1 n2 : nat) (a : 'M[F]_(m1, n1))
  (b : 'M[F]_(m1, n2)) (c : 'M[F]_(m2, n1)) (d : 'M[F]_(m2, n2))
  (result : 'M[F]_(m1 + m2, n1 + n2)) : 'M[F]_(m1 + m2, n1 + n2) :=
  block_mx a b c d.

Definition concatenate_vertical (m1 m2 n : nat) (a : 'M[F]_(m1, n))
  (b : 'M[F]_(m2, n)) (result : 'M[F]_(m1 + m2, n)) : 'M[F]_(m1 + m2, n) :=
  col_mx a b.

(** [invert (mat, inv)]: the new contents of [inv] when the call returns.
    The statuses returned by [gsl_linalg_LU_decomp] and
    [gsl_linalg_LU_invert] are dropped, as in the source. *)
Definition invert (n : nat) (mat inv : 'M[F]_n) : 'M[F]_n :=
  (* LU decomposition *)
  let LU := gsl_matrix_alloc gsl n n in
  let LU := gsl_matrix_memcpy LU mat in
  let lu := gsl_linalg_LU_decomp gsl LU in
  (* invert *)
  (gsl_linalg_LU_invert gsl (LU_matrix lu) (LU_permutation lu) inv).1.

(** The call of [invert (mat, inv)] as the process runs it.  A GSL routine
    that fails goes through [GSL_ERROR], which calls the error handler
    before the routine returns its status.  [controller.c] calls neither
    [gsl_set_error_handler] nor [gsl_set_error_handler_off], so that the
    handler is the default one, which prints the message and calls
    [abort ()]: a routine that reports another status than [GSL_SUCCESS]
    does not return into [invert]. *)
Definition invert_call (n : nat) (mat inv : 'M[F]_n) : outcome 'M[F]_n :=
  (* LU decomposition *)
  let LU := gsl_matrix_alloc gsl n n in
  let LU := gsl_matrix_memcpy LU mat in
  let lu := gsl_linalg_LU_decomp gsl LU in
  if LU_status lu is GSL_SUCCESS then
    (* invert *)
    let r := gsl_linalg_LU_invert gsl (LU_matrix lu) (LU_permutation lu) inv in
    if r.2 is GSL_SUCCESS then Returned r.1 else Aborted r.2
  else Aborted (LU_status lu).

(** *** [computeBMatrices] *)

(** The block [if (!J_inv) { ... }], run on the first call only: the
    statics it allocates and the constant matrices it computes. *)
Definition computeBMatrices_first_call (cntl : Controller) :
  ComputeBMatrices.statics F :=
  let alloc := gsl_matrix_alloc gsl in
  (* compute matrices that are constant *)
  (* J^-1 *)
  let J_inv := invert (J cntl) (alloc 3 3) in
  (* A_c^-1 *)
  let A_c_inv := invert (A_c cntl) (alloc 6 6) in
  (* I - A_d *)
  let I_minus_A_d := gsl_matrix_set_identity (alloc 6 6) in
  let I_minus_A_d := gsl_matrix_sub I_minus_A_d (A_d cntl) in
  (* transform from B_c to B_d: -A_c^-1 * (I - A_d) *)
  let transform :=
    gsl_blas_dgemm_NN (- 1) A_c_inv I_minus_A_d 0 (alloc 6 6) in
  ComputeBMatrices.Statics J_inv (alloc 3 3) (alloc 3 3)
    A_c_inv I_minus_A_d transform.

(** The body of [computeBMatrices].  When [b] is the zero vector the C
    division [1.0 / bT_b] is an infinity and the products that follow are
    NaN: the call returns all the same, but the field has neither value,
    and the matrices the definition stores in [B_c] and [B_d] are those of
    the code for a nonzero [b] only. *)
Definition computeBMatrices (cntl : Controller)
  (st : option (ComputeBMatrices.statics F)) :
  Controller * ComputeBMatrices.statics F :=
  (* allocate memory on first function call *)
  let s := if st is Some s then s else computeBMatrices_first_call cntl in
  (* Create b matrix from b vector *)
  let b1 := gsl_vector_get (b cntl) (@Ordinal 3 0 isT) in
  let b2 := gsl_vector_get (b cntl) (@Ordinal 3 1 isT) in
  let b3 := gsl_vector_get (b cntl) (@Ordinal 3 2 isT) in
  let cntl := set_bmat cntl (memcpy_matrix 3 3
    [:: 0;    - b3; b2;
        b3;   0;    - b1;
        - b2; b1;   0]) in
  (* Recompute B_c matrix *)
  let bT_b := gsl_blas_ddot (b cntl) (b cntl) in
  let quotient := gsl_blas_dgemm_NN (1 ./ bT_b) (bmat cntl) (bmat cntl)
                    0 (ComputeBMatrices.quotient s) in
  let J_inv_quotient := gsl_blas_dgemm_NN 1 (ComputeBMatrices.J_inv s)
                          quotient 0 (ComputeBMatrices.J_inv_quotient s) in
  let cntl := set_B_c cntl
    (concatenate_vertical (Zero_3 cntl) J_inv_quotient (B_c cntl)) in
  (* Recompute B_d matrix *)
  let cntl := set_B_d cntl
    (gsl_blas_dgemm_NN 1 (ComputeBMatrices.transform s) (B_c cntl)
       0 (B_d cntl)) in
  (cntl, ComputeBMatrices.Statics (ComputeBMatrices.J_inv s) quotient
           J_inv_quotient (ComputeBMatrices.A_c_inv s)
           (ComputeBMatrices.I_minus_A_d s) (ComputeBMatrices.transform s)).

(** *** [newtonRaphsonConverged] and [runNewtonRaphsonProcess] *)

(** The two nested loops return [false] at the first entry whose
    difference exceeds the tolerance, [true] when there is none. *)
Definition newtonRaphsonConverged (S S_prev : 'M[F]_(6 + 6)) : bool :=
  all (fun i => all (fun j =>
      ~~ (fabs (gsl_matrix_get S i j - gsl_matrix_get S_prev i j)
            > NR_TOLERANCE))
    (enum 'I_(6 + 6))) (enum 'I_(6 + 6)).

(** The [do ... while] loop: [S] and [S_inverse] are the contents of the
    matrices when a pass starts.  [None]: the loop has not left after
    [fuel] passes. *)
Fixpoint newton_loop (fuel : nat)
  (H_squared S S_prev S_inverse : 'M[F]_(6 + 6)) :
  option ('M[F]_(6 + 6) * RunNewtonRaphsonProcess.statics F) :=
  if fuel is fuel'.+1 then
    (* S_{k+1} = 0.5 * (S_k + S_k^-1 * H^2) *)
    let S_prev := gsl_matrix_memcpy S_prev S in
    let S_inverse := invert S S_inverse in
    let S :=
      gsl_blas_dgemm_NN (sci F 5 1) S_inverse H_squared (sci F 5 1) S in
    if ~~ newtonRaphsonConverged S S_prev
    then newton_loop fuel' H_squared S S_prev S_inverse
    else Some (S, RunNewtonRaphsonProcess.Statics S_prev S_inverse H_squared)
  else None.

Definition runNewtonRaphsonProcess (fuel : nat) (H S : 'M[F]_(6 + 6))
  (st : option (RunNewtonRaphsonProcess.statics F)) :
  option ('M[F]_(6 + 6) * RunNewtonRaphsonProcess.statics F) :=
  let alloc := gsl_matrix_alloc gsl in
  (* allocate memory on first function call *)
  let s :=
    if st is Some s then s else
      RunNewtonRaphsonProcess.Statics
        (alloc (6 + 6)%N (6 + 6)%N) (alloc (6 + 6)%N (6 + 6)%N)
        (alloc (6 + 6)%N (6 + 6)%N) in
  (* it works if we always start from the identity *)
  let S := gsl_matrix_set_identity S in
  let H_squared :=
    gsl_blas_dgemm_NN 1 H H 0 (RunNewtonRaphsonProcess.H_squared s) in
  newton_loop fuel H_squared S (RunNewtonRaphsonProcess.S_prev s)
    (RunNewtonRaphsonProcess.S_inverse s).

(** *** [computePMatrix] *)

(** The block [if (!negativeQ) { ... }], run on the first call only. *)
Definition computePMatrix_first_call (cntl : Controller) :
  ComputePMatrix.statics F :=
  let alloc := gsl_matrix_alloc gsl in
  (* N matrix is constant: N = [A_d 0; -Q I] *)
  let negativeQ := gsl_matrix_memcpy (alloc 6 6) (Q cntl) in
  let negativeQ := gsl_matrix_scale negativeQ (- 1) in
  let N := concatenate2x2 (A_d cntl) (Zero_6 cntl) negativeQ (I_6 cntl)
             (alloc (6 + 6)%N (6 + 6)%N) in
  (* R^-1 and A_d^T are constant *)
  let R_inverse := invert (R cntl) (alloc 3 3) in
  let A_d_transpose := gsl_matrix_transpose_memcpy (alloc 6 6) (A_d cntl) in
  ComputePMatrix.Statics negativeQ N R_inverse (alloc 3 (3 + 3)%N)
    (alloc 6 6) A_d_transpose
    (alloc (6 + 6)%N (6 + 6)%N) (alloc (6 + 6)%N (6 + 6)%N)
    (alloc (6 + 6)%N (6 + 6)%N) (alloc (6 + 6)%N (6 + 6)%N)
    (alloc (6 + 6)%N (6 + 6)%N) (alloc (6 + 6)%N (6 + 6)%N)
    (alloc 6 6).

Definition computePMatrix (fuel : nat) (cntl : Controller)
  (st : option (ComputePMatrix.statics F))
  (nr : option (RunNewtonRaphsonProcess.statics F)) :
  option (Controller * ComputePMatrix.statics F *
          RunNewtonRaphsonProcess.statics F) :=
  (* allocate memory on first function call *)
  let s := if st is Some s then s else computePMatrix_first_call cntl in
  let N := ComputePMatrix.N s in
  (* L matrix: L = [I  B_d*R^-1*B_d^T; 0  A_d^T] *)
  let Rinv_BdT := gsl_blas_dgemm_NT 1 (ComputePMatrix.R_inverse s)
                    (B_d cntl) 0 (ComputePMatrix.Rinv_BdT s) in
  let Bd_Rinv_BdT := gsl_blas_dgemm_NN 1 (B_d cntl) Rinv_BdT
                       0 (ComputePMatrix.Bd_Rinv_BdT s) in
  let L := concatenate2x2 (I_6 cntl) Bd_Rinv_BdT (Zero_6 cntl)
             (ComputePMatrix.A_d_transpose s) (ComputePMatrix.L s) in
  (* Hamiltonian matrix: H = (N + L)^-1 * (N - L) *)
  let N_plus_L := gsl_matrix_memcpy (ComputePMatrix.N_plus_L s) N in
  let N_plus_L := gsl_matrix_add N_plus_L L in
  let N_plus_L_inverse :=
    invert N_plus_L (ComputePMatrix.N_plus_L_inverse s) in
  let N_minus_L := gsl_matrix_memcpy (ComputePMatrix.N_minus_L s) N in
  let N_minus_L := gsl_matrix_sub N_minus_L L in
  let H := gsl_blas_dgemm_NN 1 N_plus_L_inverse N_minus_L
             0 (ComputePMatrix.H s) in
  (* use Newton-Raphson process to determine S (positive sqrt of H) *)
  if runNewtonRaphsonProcess fuel H (ComputePMatrix.S s) nr
    is Some r
  then
    let S := r.1 in
    let nr' := r.2 in
    (* extract X_1 and X_2 from H - S *)
    let H := gsl_matrix_sub H S in
    let X1 := ulsubmx H in
    let X2 := dlsubmx H in
    (* calculate P(t) = X_2 * X_1^-1 *)
    let X1_inverse := invert X1 (ComputePMatrix.X1_inverse s) in
    let cntl := set_P cntl (gsl_blas_dgemm_NN 1 X2 X1_inverse 0 (P cntl)) in
    Some (cntl,
          ComputePMatrix.Statics (ComputePMatrix.negativeQ s) N
            (ComputePMatrix.R_inverse s) Rinv_BdT Bd_Rinv_BdT
            (ComputePMatrix.A_d_transpose s) L N_plus_L N_plus_L_inverse
            N_minus_L H S X1_inverse,
          nr')
  else None.

(** *** [computeGainMatrix] *)

Definition computeGainMatrix (cntl : Controller)
  (st : option (ComputeGainMatrix.statics F)) :
  Controller * ComputeGainMatrix.statics F :=
  let alloc := gsl_matrix_alloc gsl in
  (* allocate memory on first function call *)
  let s :=
    if st is Some s then s else
      ComputeGainMatrix.Statics (alloc 6 6) (alloc 3 6) (alloc (3 + 3)%N 3)
        (alloc 3 3) (alloc 3 3) (alloc 3 3) in
  let P_Ad := gsl_blas_dgemm_NN 1 (P cntl) (A_d cntl)
                0 (ComputeGainMatrix.P_Ad s) in
  let BdT_P_Ad := gsl_blas_dgemm_TN 1 (B_d cntl) P_Ad
                    0 (ComputeGainMatrix.BdT_P_Ad s) in
  let P_Bd := gsl_blas_dgemm_NN 1 (P cntl) (B_d cntl)
                0 (ComputeGainMatrix.P_Bd s) in
  let BdT_P_Bd := gsl_blas_dgemm_TN 1 (B_d cntl) P_Bd
                    0 (ComputeGainMatrix.BdT_P_Bd s) in
  let R_plus_BdT_P_Bd :=
    gsl_matrix_memcpy (ComputeGainMatrix.R_plus_BdT_P_Bd s) (R cntl) in
  let R_plus_BdT_P_Bd := gsl_matrix_add R_plus_BdT_P_Bd BdT_P_Bd in
  let R_plus_BdT_P_Bd_inv :=
    invert R_plus_BdT_P_Bd (ComputeGainMatrix.R_plus_BdT_P_Bd_inv s) in
  (* final gain matrix:
     K = (R + B_d(t)^T * P(t) * B_d(t))^-1 * B_d(t)^T * P(t) * A_d *)
  let cntl := set_K cntl
    (gsl_blas_dgemm_NN 1 R_plus_BdT_P_Bd_inv BdT_P_Ad 0 (K cntl)) in
  (cntl, ComputeGainMatrix.Statics P_Ad BdT_P_Ad P_Bd BdT_P_Bd
           R_plus_BdT_P_Bd R_plus_BdT_P_Bd_inv).

(** *** [sendMTInputs]: the new controller and the arguments passed to
    [setMagnetorquer] *)

Definition sendMTInputs (cntl : Controller) : Controller * (F * F * F) :=
  (* u = -K*x *)
  let cntl := set_u cntl
    (gsl_blas_dgemv_N (- 1) (K cntl) (x cntl) 0 (u cntl)) in
  (cntl, (gsl_vector_get (u cntl) (@Ordinal 3 0 isT),
          gsl_vector_get (u cntl) (@Ordinal 3 1 isT),
          gsl_vector_get (u cntl) (@Ordinal 3 2 isT))).

End Controller.


(** ** An exact kernel

    A kernel that computes in the field: division is the division of the
    field, fresh memory is zero, the "decomposition" keeps the matrix
    itself, inversion returns the inverse of a nonsingular matrix and
    reports [GSL_EDOM], leaving [inv] untouched, on a singular one, and the
    exponential is its Taylor polynomial of degree two.  It shows that the
    kernel interface is inhabited, and is the kernel of the closed
    examples. *)

Section ExactKernel.
Variable F : realFieldType.

Definition exact_LU_decomp (n : nat) (A : 'M[F]_n) : LU_result F n :=
  LUResult A (iota 0 n) 1 GSL_SUCCESS.

Definition exact_LU_invert (n : nat) (LU : 'M[F]_n) (p : seq nat)
  (inv : 'M[F]_n) : 'M[F]_n * gsl_status :=
  if LU \in unitmx then (invmx LU, GSL_SUCCESS) else (inv, GSL_EDOM).

Definition exact_exponential (A : 'M[F]_6) : 'M[F]_6 :=
  1%:M + A + 2^-1 *: (A *m A).

Definition exact_kernel : gsl_kernel F.
Proof.
refine (@GslKernel F (fun x y => x / y) (fun m n => 0)
          exact_LU_decomp exact_LU_invert exact_exponential _ _).
- by [].
- by move=> n A inv0 A_unit; rewrite /exact_LU_invert /= A_unit.
Defined.

(** Its statuses are those of GSL. *)
Definition exact_status_kernel : gsl_status_kernel exact_kernel.
Proof.
split=> [n A | n A inv0] //=.
by rewrite /exact_LU_invert; case: ifP.
Defined.

End ExactKernel.

(** ** Specification-side definitions

    The formulas of the specification, written with the operations of
    matrix algebra (true inverses, products, transposes), to be compared
    with what the functions compute. *)

Section Specification.
Variable F : realFieldType.
Variable gsl : gsl_kernel F.

Local Notation Controller := (Controller F).

(** The cross-product matrix [b]x of a vector. *)
Definition skew (v : 'cV[F]_3) : 'M[F]_3 :=
  let b1 := v (@Ordinal 3 0 isT) 0 in
  let b2 := v (@Ordinal 3 1 isT) 0 in
  let b3 := v (@Ordinal 3 2 isT) 0 in
  \matrix_(i < 3, j < 3)
    nth 0 (nth [::] [:: [:: 0;    - b3; b2];
                        [:: b3;   0;    - b1];
                        [:: - b2; b1;   0]] i) j.

(** [v . w] *)
Definition dot (n : nat) (v w : 'cV[F]_n) : F := (v^T *m w) 0 0.

(** B_c: a zero top block over J^-1 ([b]x [b]x) / (b . b). *)
Definition B_c_spec (c : Controller) : 'M[F]_(3 + 3, 3) :=
  col_mx 0
    ((dot (b c) (b c))^-1 *: (invmx (J c) *m (skew (b c) *m skew (b c)))).

(** The transform -A_c^-1 (I - A_d) from B_c to B_d. *)
Definition transform_spec (c : Controller) : 'M[F]_6 :=
  - invmx (A_c c) *m (1%:M - A_d c).

(** N = [[A_d, 0], [-Q, I]] and L = [[I, B_d R^-1 B_d^T], [0, A_d^T]]. *)
Definition N_spec (c : Controller) : 'M[F]_(6 + 6) :=
  block_mx (A_d c) 0 (- Q c) 1%:M.

Definition L_spec (c : Controller) : 'M[F]_(6 + 6) :=
  block_mx 1%:M (B_d c *m invmx (R c) *m (B_d c)^T) 0 (A_d c)^T.

(** H = (N + L)^-1 (N - L). *)
Definition H_spec (c : Controller) : 'M[F]_(6 + 6) :=
  invmx (N_spec c + L_spec c) *m (N_spec c - L_spec c).

(** P = X2 X1^-1, with X1 and X2 the top-left and bottom-left blocks of
    H - S. *)
Definition P_spec (H S : 'M[F]_(6 + 6)) : 'M[F]_6 :=
  dlsubmx (H - S) *m invmx (ulsubmx (H - S)).

(** One Newton update, S_{k+1} = 1/2 (S_k + S_k^-1 H^2). *)
Definition newton_update (H S : 'M[F]_(6 + 6)) : 'M[F]_(6 + 6) :=
  2^-1 *: (S + invmx S *m (H *m H)).

(** The convergence test: every entry of S_{k+1} - S_k is within the
    tolerance 1e-3. *)
Definition within_tolerance (S S' : 'M[F]_(6 + 6)) : Prop :=
  forall i j : 'I_(6 + 6), `|S i j - S' i j| <= 1 / 1000.

(** K = (R + B_d^T P B_d)^-1 B_d^T P A_d. *)
Definition K_spec (c : Controller) : 'M[F]_(3, 6) :=
  invmx (R c + (B_d c)^T *m P c *m B_d c) *m ((B_d c)^T *m P c *m A_d c).

(** The readings as the sensor functions return them. *)
Definition raw_x (env : Sensors F) : seq F :=
  let: (x0, x1, x2) := getAngularPosition env in
  let: (x3, x4, x5) := getAngularVelocity env in
  [:: x0; x1; x2; x3; x4; x5].

Definition raw_b (env : Sensors F) : seq F :=
  let: (b0, b1, b2) := getMagneticField env in [:: b0; b1; b2].

(** *** The constant block and the cached statics *)

(** The constant block of two controllers is the same: no function of the
    file writes it after [initializeController]. *)
Definition same_constants (c0 c : Controller) : Prop :=
  and ([/\ A_c c = A_c c0, A_d c = A_d c0, Q c = Q c0 & R c = R c0])
      ([/\ J c = J c0, I_6 c = I_6 c0, Zero_6 c = Zero_6 c0
          & Zero_3 c = Zero_3 c0]).

(** The identity and zero matrices hold what [initializeController] puts
    there. *)
Definition helpers_set (c : Controller) : Prop :=
  [/\ I_6 c = 1%:M, Zero_6 c = 0 & Zero_3 c = 0].

(** The constant statics of [computeBMatrices] are those its first call
    computed, on a controller with the constant block of [c0]. *)
Definition B_cached (c0 : Controller) (s : ComputeBMatrices.statics F) :
  Prop :=
  let s0 := computeBMatrices_first_call gsl c0 in
  [/\ ComputeBMatrices.J_inv s = ComputeBMatrices.J_inv s0,
      ComputeBMatrices.A_c_inv s = ComputeBMatrices.A_c_inv s0,
      ComputeBMatrices.I_minus_A_d s = ComputeBMatrices.I_minus_A_d s0
    & ComputeBMatrices.transform s = ComputeBMatrices.transform s0].

(** The statics a call of [computeBMatrices] works with: those of the
    previous calls, or those its first-call block sets up. *)
Definition computeBMatrices_statics (c : Controller)
  (st : option (ComputeBMatrices.statics F)) : ComputeBMatrices.statics F :=
  if st is Some s then s else computeBMatrices_first_call gsl c.

(** The statics of [computeBMatrices] before a call: [NULL] before the
    first one, cached afterwards. *)
Definition B_statics_of (c0 : Controller)
  (st : option (ComputeBMatrices.statics F)) : Prop :=
  if st is Some s then B_cached c0 s else True.

(** The same for [computePMatrix]. *)
Definition P_cached (c0 : Controller) (s : ComputePMatrix.statics F) :
  Prop :=
  let s0 := computePMatrix_first_call gsl c0 in
  [/\ ComputePMatrix.negativeQ s = ComputePMatrix.negativeQ s0,
      ComputePMatrix.N s = ComputePMatrix.N s0,
      ComputePMatrix.R_inverse s = ComputePMatrix.R_inverse s0
    & ComputePMatrix.A_d_transpose s = ComputePMatrix.A_d_transpose s0].

Definition computePMatrix_statics (c : Controller)
  (st : option (ComputePMatrix.statics F)) : ComputePMatrix.statics F :=
  if st is Some s then s else computePMatrix_first_call gsl c.

Definition P_statics_of (c0 : Controller)
  (st : option (ComputePMatrix.statics F)) : Prop :=
  if st is Some s then P_cached c0 s else True.

(** *** The passes of the Newton loop *)

(** One pass of the body of the [do ... while] loop, on the contents of
    [S], [S_prev] and [S_inverse]. *)
Definition newton_pass (H_squared : 'M[F]_(6 + 6))
  (m : 'M[F]_(6 + 6) * 'M[F]_(6 + 6) * 'M[F]_(6 + 6)) :
  'M[F]_(6 + 6) * 'M[F]_(6 + 6) * 'M[F]_(6 + 6) :=
  let S := m.1.1 in
  let S_inverse := invert gsl S m.2 in
  (gsl_blas_dgemm_NN (sci F 5 1) S_inverse H_squared (sci F 5 1) S,
   S, S_inverse).

(** The contents of the three matrices after [k] passes of the loop that
    [runNewtonRaphsonProcess (H, S)] starts. *)
Definition newton_state (H : 'M[F]_(6 + 6))
  (st : option (RunNewtonRaphsonProcess.statics F)) (k : nat) :
  'M[F]_(6 + 6) * 'M[F]_(6 + 6) * 'M[F]_(6 + 6) :=
  let alloc := gsl_matrix_alloc gsl in
  let S_prev := if st is Some s then RunNewtonRaphsonProcess.S_prev s
                else alloc (6 + 6)%N (6 + 6)%N in
  let S_inverse := if st is Some s then RunNewtonRaphsonProcess.S_inverse s
                   else alloc (6 + 6)%N (6 + 6)%N in
  iter k (newton_pass (H *m H)) (1%:M, S_prev, S_inverse).

(** The iterate S_k. *)
Definition newton_S (H : 'M[F]_(6 + 6))
  (st : option (RunNewtonRaphsonProcess.statics F)) (k : nat) :
  'M[F]_(6 + 6) := (newton_state H st k).1.1.

(** *** Stability and definiteness *)

Definition symmetric_psd (n : nat) (M : 'M[F]_n) : Prop :=
  M^T = M /\ forall v : 'cV[F]_n, 0 <= (v^T *m M *m v) 0 0.

Definition symmetric_pd (n : nat) (M : 'M[F]_n) : Prop :=
  M^T = M /\ forall v : 'cV[F]_n, v != 0 -> 0 < (v^T *m M *m v) 0 0.

(** Every eigenvalue, in whatever normed field extension it lives, is
    strictly inside the unit circle. *)
Definition schur_stable (n : nat) (M : 'M[F]_n) : Prop :=
  forall (C : numFieldType) (f : {rmorphism F -> C}) (z : C),
    eigenvalue (map_mx f M) z -> `|z| < 1.

Definition stabilizable (A : 'M[F]_6) (B : 'M[F]_(3 + 3, 3)) : Prop :=
  exists K0 : 'M[F]_(3, 6), schur_stable (A - B *m K0).

(** The closed-loop matrix A_d - B_d K. *)
Definition closed_loop (c : Controller) : 'M[F]_6 := A_d c - B_d c *m K c.

(** A 12x12 matrix whose bottom-left 6x6 block is zero. *)
Definition block_upper (M : 'M[F]_(6 + 6)) : Prop := dlsubmx M = 0.

(** *** Example inputs *)

(** A matrix whose square is -3 I: the Newton loop started on it
    oscillates between I and -I. *)
Definition H_oscillating : 'M[F]_(6 + 6) :=
  block_mx 0 (- 3)%:M 1%:M 0.

(** Zeroed memory for a controller. *)
Definition zero_controller : Controller :=
  mkController 0 0 0 0 0 0 0 0 0 0 0 0 0 0 0 0.

(** A controller with the identity for A_c, R and J, no dynamics and no
    cost, and the helper matrices set. *)
Definition unit_controller : Controller :=
  mkController 1%:M 0 0 1%:M 1%:M 0 0 (const_mx 1) 0 0 0 0 0 1%:M 0 0.

(** Sensors that read a zero magnetic field. *)
Definition zero_field_sensors : Sensors F :=
  mkSensors (0, 0, 0) (0, 0, 0) (0, 0, 0).

(** diag (a, a, a, b, b, b), and the 12x12 matrix of four such blocks. *)
Definition pe (a b : F) : 'M[F]_(3 + 3) := block_mx a%:M 0 0 b%:M.

Definition pq (a b c d e f g h : F) : 'M[F]_(6 + 6) :=
  block_mx (pe a b) (pe c d) (pe e f) (pe g h).

(** The first row and column of a 12x12 matrix. *)
Definition first_index : 'I_(6 + 6) := lshift (3 + 3) (lshift 3 (ord0 : 'I_3)).

(** A controller with three marginally stable modes, all three driven by
    the input, three modes at rest, no state cost and a unit input cost:
    A_d = diag (1, 1, 1, 0, 0, 0), B_d = [I; 0], Q = 0, R = I. *)
Definition marginal_controller : Controller :=
  mkController 1%:M (pe 1 0) 0 1%:M 1%:M 0 0 0 0 0 (col_mx 1%:M 0) 0 0
    1%:M 0 0.

(** A controller with three unstable modes of multiplier a, all three
    driven by the input, three modes at rest, and unit state and input
    costs: A_d = diag (a, a, a, 0, 0, 0), B_d = [I; 0], Q = I, R = I. *)
Definition stiff_controller (a : F) : Controller :=
  mkController 1%:M (pe a 0) 1%:M 1%:M 1%:M 0 0 0 0 0 (col_mx 1%:M 0) 0 0
    1%:M 0 0.

(** diag (1, eps, eps): for a small eps a matrix close to a singular
    one, with a condition number of 1 / eps. *)
Definition ill_conditioned (eps : F) : 'M[F]_(1 + 2) :=
  block_mx 1%:M 0 0 eps%:M.

(** *** Further definitions *)

(** The controller [c] with the constant block of [k] written over its
    own: what an assignment to [cntl->A_c], [cntl->A_d], [cntl->Q],
    [cntl->R] and [cntl->J] between two calls leaves. *)
Definition with_constants_of (k c : Controller) : Controller :=
  mkController (A_c k) (A_d k) (Q k) (R k) (J k) (x c) (u c) (b c) (bmat c)
    (B_c c) (B_d c) (P c) (K c) (I_6 c) (Zero_6 c) (Zero_3 c).

(** The convergence test of the specification, as a boolean. *)
Definition within_toleranceb (S S' : 'M[F]_(6 + 6)) : bool :=
  [forall i, forall j, `|S i j - S' i j| <= 1 / 1000].

(** The iteration of the specification: S_0 = I, then the Newton update
    with true inverses, until two successive iterates are within the
    tolerance.  [None]: not there after [fuel] updates. *)
Fixpoint newton_iteration (fuel : nat) (H S : 'M[F]_(6 + 6)) :
  option 'M[F]_(6 + 6) :=
  if fuel is fuel'.+1 then
    let S' := newton_update H S in
    if within_toleranceb S' S then Some S' else newton_iteration fuel' H S'
  else None.

(** Its k-th iterate. *)
Definition newton_iterate (H : 'M[F]_(6 + 6)) (k : nat) : 'M[F]_(6 + 6) :=
  iter k (newton_update H) 1%:M.

(** Newton's iteration for the square root of the number [a], from 1. *)
Definition sqrt_update (a s : F) : F := 2^-1 * (s + s^-1 * a).

Definition sqrt_iterate (a : F) (k : nat) : F := iter k (sqrt_update a) 1.

(** Sensors whose magnetometer reads (1, 0, 0). *)
Definition unit_field_sensors : Sensors F :=
  mkSensors (0, 0, 0) (0, 0, 0) (1, 0, 0).

End Specification.

(** ** Properties *)

Section Properties.
Variable F : realFieldType.
Variable gsl : gsl_kernel F.

Local Notation Controller := (Controller F).

(** *** Literals *)

Lemma of_pos_gt0 (p : positive) : 0 < of_pos F p.
Proof.
elim: p => [p IHp | p IHp | ] /=; last exact: ltr01.
- by rewrite addr_gt0 ?ltr01 // mulr_gt0 // ltr0n.
- by rewrite mulr_gt0 // ltr0n.
Qed.

Lemma sci_gt0 (m : positive) (e : nat) : 0 < sci F m e.
Proof. by rewrite /sci divr_gt0 ?of_pos_gt0 // exprn_gt0 // ltr0n. Qed.

Lemma half_literal : sci F 5 1 = 2^-1.
Proof. by rewrite /sci /= expr1; field. Qed.

Lemma NR_TOLERANCE_literal : NR_TOLERANCE F = 1 / 1000.
Proof. by rewrite /NR_TOLERANCE /sci /=; field. Qed.

(** *** The BLAS calls of the file, as matrix algebra *)

Lemma dgemm_NN_product (m k n : nat) (A : 'M[F]_(m, k)) (B : 'M[F]_(k, n))
  (C : 'M[F]_(m, n)) : gsl_blas_dgemm_NN 1 A B 0 C = A *m B.
Proof. by rewrite /gsl_blas_dgemm_NN scale1r scale0r addr0. Qed.

Lemma dgemm_NT_product (m k n : nat) (A : 'M[F]_(m, k)) (B : 'M[F]_(n, k))
  (C : 'M[F]_(m, n)) : gsl_blas_dgemm_NT 1 A B 0 C = A *m B^T.
Proof. by rewrite /gsl_blas_dgemm_NT scale1r scale0r addr0. Qed.

Lemma dgemm_TN_product (m k n : nat) (A : 'M[F]_(k, m)) (B : 'M[F]_(k, n))
  (C : 'M[F]_(m, n)) : gsl_blas_dgemm_TN 1 A B 0 C = A^T *m B.
Proof. by rewrite /gsl_blas_dgemm_TN scale1r scale0r addr0. Qed.

Lemma dgemm_NN_scaled (m k n : nat) (a : F) (A : 'M[F]_(m, k))
  (B : 'M[F]_(k, n)) (C : 'M[F]_(m, n)) :
  gsl_blas_dgemm_NN a A B 0 C = a *: (A *m B).
Proof. by rewrite /gsl_blas_dgemm_NN scale0r addr0. Qed.

Lemma ddot_dot (n : nat) (v w : 'cV[F]_n) : gsl_blas_ddot v w = dot v w.
Proof.
by rewrite /gsl_blas_ddot /dot mxE; apply: eq_bigr => i _; rewrite mxE.
Qed.

(** [invert] returns the inverse of a nonsingular matrix, whatever [inv]
    held before. *)
Lemma invert_unit (n : nat) (A inv0 : 'M[F]_n) :
  A \in unitmx -> invert gsl A inv0 = invmx A.
Proof. by move=> A_unit; rewrite /invert /gsl_matrix_memcpy LU_invertE. Qed.

(** *** The controller after [initializeController] *)

Lemma initializeController_helpers (c : Controller) :
  helpers_set (initializeController gsl c).
Proof. by []. Qed.

Lemma initializeController_R (c : Controller) :
  R (initializeController gsl c) = (INPUT_COST F)%:M.
Proof.
apply/matrixP => i j; rewrite !mxE.
by case: i => [[|[|[|i]]] Hi] //; case: j => [[|[|[|j]]] Hj].
Qed.

Lemma initializeController_R_unit (c : Controller) :
  R (initializeController gsl c) \in unitmx.
Proof.
rewrite initializeController_R unitmxE det_scalar unitfE.
by rewrite !expf_neq0 // pnatr_eq0.
Qed.

(** *** The cross-product matrix *)

Lemma ord3_0 : ord0 = @Ordinal 3 0 isT.
Proof. exact: val_inj. Qed.

Lemma ord3_1 : lift ord0 ord0 = @Ordinal 3 1 isT.
Proof. exact: val_inj. Qed.

Lemma ord3_2 : lift ord0 (lift ord0 ord0) = @Ordinal 3 2 isT.
Proof. exact: val_inj. Qed.

(** The array copied into [cntl->bmat] is the cross-product matrix. *)
Lemma bmat_computeBMatrices (c : Controller)
  (st : option (ComputeBMatrices.statics F)) :
  bmat (computeBMatrices gsl c st).1 = skew (b c).
Proof.
rewrite /computeBMatrices /=; apply/matrixP => i j; rewrite !mxE.
by case: i => [[|[|[|i]]] Hi] //; case: j => [[|[|[|j]]] Hj].
Qed.

Lemma skew_tr (v : 'cV[F]_3) : (skew v)^T = - skew v.
Proof.
apply/matrixP => i j; rewrite !mxE.
case: i => [[|[|[|i]]] Hi] //; case: j => [[|[|[|j]]] Hj] //=;
  by rewrite ?oppr0 ?opprK.
Qed.

Lemma skew_mul (v : 'cV[F]_3) : skew v *m v = 0.
Proof.
apply/matrixP => i j; rewrite !mxE !big_ord_recl big_ord0 !mxE /=.
rewrite (ord1 j) ord3_2 ord3_1 ord3_0.
by case: i => [[|[|[|i]]] Hi] //=; ring.
Qed.

(** C9: for every vector b = (b1, b2, b3), the 3x3 matrix that
    [computeBMatrices] stores in [bmat] is skew-symmetric, its transpose
    is its opposite, and it annihilates b: [b]x b = (0, 0, 0). *)
Theorem computeBMatrices_bmat_skew (c : Controller)
  (st : option (ComputeBMatrices.statics F)) :
  let bx := bmat (computeBMatrices gsl c st).1 in
  bx^T = - bx /\ bx *m b c = 0.
Proof. by move=> bx; rewrite /bx bmat_computeBMatrices skew_tr skew_mul. Qed.

(** *** [updateSensors] *)

(** C10: [updateSensors] does not store the raw readings: the stored state
    vector is the reading with the mean motion 1.144035952968e-3 added to
    its component of index 4 and the other five components unchanged, and
    the stored field vector is the reading itself. *)
Theorem updateSensors_offsets_x4 (env : Sensors F) (c : Controller) :
  let c' := updateSensors env c in
  [/\ forall i : 'I_6, x c' i 0 =
        if i == 4 :> nat then nth 0 (raw_x env) 4 + MEAN_MOTION F
        else nth 0 (raw_x env) i,
      MEAN_MOTION F = of_pos F 1144035952968 / 10 ^+ 15,
      x c' <> memcpy_vector 6 (raw_x env)
    & forall i : 'I_3, b c' i 0 = nth 0 (raw_b env) i].
Proof.
rewrite /updateSensors /raw_x /raw_b.
case: (getAngularPosition env) => [[x0 x1] x2].
case: (getAngularVelocity env) => [[x3 x4] x5].
case: (getMagneticField env) => [[b0 b1] b2] /=.
split=> // [i | | i]; rewrite ?mxE //.
- by case: i => [[|[|[|[|[|[|i]]]]]] Hi].
- move/colP => /(_ (@Ordinal 6 4 isT)); rewrite !mxE /= => /eqP.
  by rewrite -[X in _ == X]addr0 (inj_eq (addrI _)) gt_eqF // sci_gt0.
Qed.

(** *** [computeGainMatrix] *)

(** C6: for every P, A_d, B_d and R with R + B_d^T P B_d invertible,
    [computeGainMatrix] stores in K exactly the 3x6 matrix
    (R + B_d^T P B_d)^-1 B_d^T P A_d. *)
Theorem computeGainMatrix_spec (c : Controller)
  (st : option (ComputeGainMatrix.statics F)) :
  R c + (B_d c)^T *m P c *m B_d c \in unitmx ->
  K (computeGainMatrix gsl c st).1 = K_spec c.
Proof.
move=> RBPB_unit; rewrite /computeGainMatrix /K_spec /=.
rewrite !dgemm_NN_product !dgemm_TN_product /gsl_matrix_add /gsl_matrix_memcpy.
by rewrite !mulmxA invert_unit.
Qed.

(** *** [computeBMatrices] *)

Local Notation B_statics := (computeBMatrices_statics gsl).

Lemma first_call_B_constants (c0 c : Controller) :
  same_constants c0 c -> B_cached gsl c0 (computeBMatrices_first_call gsl c).
Proof.
by case=> [[Ac Ad _ _] [Jc _ _ _]]; rewrite /B_cached /= Ac Ad Jc.
Qed.

Lemma B_statics_cached (c0 c : Controller)
  (st : option (ComputeBMatrices.statics F)) :
  same_constants c0 c -> B_statics_of gsl c0 st -> B_cached gsl c0 (B_statics c st).
Proof. by case: st => [s | ] //= c0c _; exact: first_call_B_constants. Qed.

(** What a call stores, in terms of the statics it works with. *)
Lemma computeBMatrices_stores (c : Controller)
  (st : option (ComputeBMatrices.statics F)) :
  let s := B_statics c st in
  let r := computeBMatrices gsl c st in
  let quotient :=
    double_div gsl 1 (dot (b c) (b c)) *: (skew (b c) *m skew (b c)) in
  [/\ B_c r.1 = col_mx (Zero_3 c) (ComputeBMatrices.J_inv s *m quotient),
      B_d r.1 = ComputeBMatrices.transform s *m B_c r.1,
      ComputeBMatrices.quotient r.2 = quotient
    & [/\ ComputeBMatrices.J_inv r.2 = ComputeBMatrices.J_inv s,
          ComputeBMatrices.A_c_inv r.2 = ComputeBMatrices.A_c_inv s,
          ComputeBMatrices.I_minus_A_d r.2 = ComputeBMatrices.I_minus_A_d s
        & ComputeBMatrices.transform r.2 = ComputeBMatrices.transform s]].
Proof.
move=> s r quotient.
have bmatE : bmat r.1 = skew (b c) by exact: bmat_computeBMatrices.
rewrite /r /computeBMatrices -/(B_statics c st) -/s /= in bmatE *.
by rewrite !dgemm_NN_product !dgemm_NN_scaled bmatE ddot_dot.
Qed.

(** C7: for every field vector b with b . b <> 0, on a controller whose
    helper matrices are set and whose J and A_c are invertible,
    [computeBMatrices] builds B_c with a zero top block over
    J^-1 ([b]x [b]x) / (b . b) and B_d = -A_c^-1 (I - A_d) B_c; the
    transform -A_c^-1 (I - A_d) is computed by the first call, kept in the
    statics, and used unchanged by every later call. *)
Theorem computeBMatrices_spec (c0 c : Controller)
  (st : option (ComputeBMatrices.statics F)) :
  same_constants c0 c -> B_statics_of gsl c0 st -> helpers_set c ->
  J c \in unitmx -> A_c c \in unitmx ->
  dot (b c) (b c) != 0 ->
  let r := computeBMatrices gsl c st in
  [/\ B_c r.1 = B_c_spec c,
      B_d r.1 = transform_spec c *m B_c r.1,
      ComputeBMatrices.transform r.2 = transform_spec c,
      forall s, st = Some s ->
        ComputeBMatrices.transform r.2 = ComputeBMatrices.transform s
    & B_statics_of gsl c0 (Some r.2)].
Proof.
move=> c0c st_ok [_ _ Zero_3E] J_unit A_c_unit bb_neq0 r.
have [B_cE B_dE _ [J_invE A_c_invE ImAE trE]] := computeBMatrices_stores c st.
have [J_inv0 A_c_inv0 ImA0 tr0] := B_statics_cached c0c st_ok.
have [[AcE AdE _ _] [JE _ _ _]] := c0c.
have trS : ComputeBMatrices.transform (B_statics c st) = transform_spec c.
  rewrite tr0 /= -AcE -AdE invert_unit // dgemm_NN_scaled scaleN1r.
  by rewrite /transform_spec mulNmx.
split.
- rewrite B_cE Zero_3E J_inv0 /= -JE invert_unit // double_divE // div1r.
  by rewrite /B_c_spec -scalemxAr.
- by rewrite B_dE trS.
- by rewrite trE trS.
- by move=> s stE; rewrite trE /B_statics stE.
- by rewrite /= /B_cached J_invE A_c_invE ImAE trE.
Qed.

(** *** The Newton loop *)

Section NewtonLoop.
Variable H_squared : 'M[F]_(6 + 6).

Local Notation state := ('M[F]_(6 + 6) * 'M[F]_(6 + 6) * 'M[F]_(6 + 6))%type.
Local Notation pass := (newton_pass gsl H_squared).

(** The loop on the contents of the three matrices, the test after a
    pass, and what the function leaves when the loop exits. *)
Local Notation loop fuel m :=
  (newton_loop gsl fuel H_squared m.1.1 m.1.2 m.2) (only parsing).
Local Notation passed m :=
  (newtonRaphsonConverged m.1.1 m.1.2) (only parsing).
Local Notation exit_with m :=
  (m.1.1, RunNewtonRaphsonProcess.Statics m.1.2 m.2 H_squared) (only parsing).

Lemma newton_loopS (fuel : nat) (m : state) :
  loop fuel.+1 m =
  if ~~ passed (pass m) then loop fuel (pass m) else Some (exit_with (pass m)).
Proof. by []. Qed.

(** While the test fails the loop goes on. *)
Lemma newton_loop_running (n : nat) (m : state) :
  (forall k, (k < n)%N -> ~~ passed (iter k.+1 pass m)) -> loop n m = None.
Proof.
elim: n m => [ | n IHn] m failing //.
rewrite newton_loopS (failing 0) //; apply: IHn => k k_lt_n.
by rewrite -iterSr; apply: failing.
Qed.

(** The loop exits after the first pass whose test succeeds. *)
Lemma newton_loop_exits (k fuel : nat) (m : state) :
  (forall j, (j < k)%N -> ~~ passed (iter j.+1 pass m)) ->
  passed (iter k.+1 pass m) -> (k < fuel)%N ->
  loop fuel m = Some (exit_with (iter k.+1 pass m)).
Proof.
elim: k fuel m => [ | k IHk] [ | fuel] m failing ok // k_lt.
  by rewrite newton_loopS [passed _]ok.
rewrite newton_loopS (failing 0) // iterSr; apply: IHk => // [j j_lt_k | ].
  by rewrite -iterSr; apply: failing.
by rewrite -iterSr.
Qed.

(** It exits in no other way. *)
Lemma newton_loop_exited (fuel : nat) (m : state)
  (r : 'M[F]_(6 + 6) * RunNewtonRaphsonProcess.statics F) :
  loop fuel m = Some r ->
  exists2 k, (k < fuel)%N &
    [/\ forall j, (j < k)%N -> ~~ passed (iter j.+1 pass m),
        passed (iter k.+1 pass m) & r = exit_with (iter k.+1 pass m)].
Proof.
elim: fuel m => [ | fuel IHfuel] m //; rewrite newton_loopS.
case ok1: (passed (pass m)) => /=.
  by case=> <-; exists 0.
move/(IHfuel (pass m)) => [k k_lt [failing ok ->]].
exists k.+1 => //; split.
- case=> [ | j] j_lt; first by rewrite /= ok1.
  by rewrite iterSr; apply: failing.
- by rewrite iterSr.
- by rewrite -iterSr.
Qed.

End NewtonLoop.

(** The test of [newtonRaphsonConverged] is the tolerance on all entries. *)
Lemma newtonRaphsonConvergedP (S S' : 'M[F]_(6 + 6)) :
  reflect (within_tolerance S S') (newtonRaphsonConverged S S').
Proof.
rewrite /newtonRaphsonConverged /fabs /gsl_matrix_get NR_TOLERANCE_literal.
apply: (iffP allP) => [all_ok i j | all_ok i _].
  by have /allP/(_ j) := all_ok i (mem_enum _ i); rewrite mem_enum -leNgt; apply.
by apply/allP => j _; rewrite -leNgt.
Qed.

(** [runNewtonRaphsonProcess] is the loop on the seeded state. *)
Lemma runNewtonRaphsonProcessE (fuel : nat) (H S0 : 'M[F]_(6 + 6))
  (st : option (RunNewtonRaphsonProcess.statics F)) :
  runNewtonRaphsonProcess gsl fuel H S0 st =
  let m := newton_state gsl H st 0 in
  newton_loop gsl fuel (H *m H) m.1.1 m.1.2 m.2.
Proof.
by rewrite /runNewtonRaphsonProcess dgemm_NN_product; case: st.
Qed.

Lemma newton_S_prev (H : 'M[F]_(6 + 6))
  (st : option (RunNewtonRaphsonProcess.statics F)) (k : nat) :
  (newton_state gsl H st k.+1).1.2 = newton_S gsl H st k.
Proof. by []. Qed.

Lemma newton_S_next (H : 'M[F]_(6 + 6))
  (st : option (RunNewtonRaphsonProcess.statics F)) (k : nat) :
  newton_S gsl H st k.+1 =
  2^-1 *: (newton_S gsl H st k
           + invert gsl (newton_S gsl H st k) (newton_state gsl H st k).2
             *m (H *m H)).
Proof.
rewrite /newton_S /newton_state iterS /newton_pass /gsl_blas_dgemm_NN.
by rewrite half_literal -scalerDr addrC.
Qed.

(** C3: on every invocation [runNewtonRaphsonProcess] seeds the iteration
    at S_0 = identity, whatever [S] held before (it is never warm-started);
    each pass applies the update S_{k+1} = 1/2 (S_k + S_k^-1 H^2), the
    inverse being the result of [invert], the true inverse when S_k is
    nonsingular; and the loop stops exactly at the first pass after which
    every one of the 144 entries of S_{k+1} - S_k has absolute value
    within the tolerance 1e-3. *)
Theorem runNewtonRaphsonProcess_spec (fuel : nat) (H S0 : 'M[F]_(6 + 6))
  (st : option (RunNewtonRaphsonProcess.statics F)) :
  let S_ := newton_S gsl H st in
  [/\ S_ 0 = 1%:M /\
      (forall S0', runNewtonRaphsonProcess gsl fuel H S0' st =
                   runNewtonRaphsonProcess gsl fuel H S0 st),
      forall k,
        S_ k.+1 = 2^-1 *: (S_ k + invert gsl (S_ k) (newton_state gsl H st k).2
                                   *m (H *m H)) /\
        (S_ k \in unitmx -> S_ k.+1 = newton_update H (S_ k)),
      forall S,
        (exists st', runNewtonRaphsonProcess gsl fuel H S0 st = Some (S, st'))
        <->
        (exists2 k, (k < fuel)%N &
           [/\ S = S_ k.+1, within_tolerance (S_ k.+1) (S_ k)
             & forall j, (j < k)%N -> ~ within_tolerance (S_ j.+1) (S_ j)])
    & #|{: 'I_(6 + 6) * 'I_(6 + 6)}| = 144%N].
Proof.
move=> S_; split; last by rewrite card_prod card_ord.
- by split=> [ | S0']; [case: st @S_ | rewrite !runNewtonRaphsonProcessE].
- move=> k; split=> [ | Sk_unit]; first exact: newton_S_next.
  by rewrite /S_ newton_S_next invert_unit.
move=> S; rewrite runNewtonRaphsonProcessE; split=> [[st'] | [k k_lt]].
  case/newton_loop_exited => k k_lt [failing ok [-> _]].
  exists k => //; split=> // [ | j j_lt]; first exact/newtonRaphsonConvergedP.
  by move/newtonRaphsonConvergedP; apply/negP; apply: failing.
case=> -> /newtonRaphsonConvergedP ok failing.
have failing' j : (j < k)%N -> ~~ newtonRaphsonConverged (S_ j.+1) (S_ j).
  by move=> j_lt; apply/newtonRaphsonConvergedP; apply: failing.
have exits := newton_loop_exits (m := newton_state gsl H st 0) failing' ok k_lt.
by eexists; exact: exits.
Qed.

(** *** A matrix on which the loop never stops *)

Lemma scalar_unitmx (n : nat) (a : F) : a != 0 -> (a%:M : 'M[F]_n) \in unitmx.
Proof. by move=> a_neq0; rewrite unitmxE det_scalar unitfE expf_neq0. Qed.

Lemma ill_conditioned_unit (eps : F) :
  eps != 0 -> ill_conditioned eps \in unitmx.
Proof.
move=> eps_neq0; rewrite unitmxE /ill_conditioned det_ublock !det_scalar.
by rewrite unitfE expr1n mul1r expf_neq0.
Qed.

Lemma H_oscillating_squared :
  H_oscillating F *m H_oscillating F = (- 3)%:M.
Proof.
rewrite /H_oscillating mulmx_block !mulmx0 !mul0mx !mulmx1 !mul1mx.
by rewrite !addr0 !add0r (scalar_mx_block 6 6 (- 3)).
Qed.

(** The iterates on [H_oscillating] are I, -I, I, -I, ... *)
Lemma newton_S_oscillating
  (st : option (RunNewtonRaphsonProcess.statics F)) (k : nat) :
  newton_S gsl (H_oscillating F) st k = ((- 1) ^+ k)%:M.
Proof.
elim: k => [ | k IHk]; first by rewrite expr0; case: st.
rewrite newton_S_next IHk invert_unit ?scalar_unitmx ?signr_eq0 //.
rewrite invmx_scalar invr_sign H_oscillating_squared -scalar_mxM.
rewrite -[X in X + _]scalemx1 -[X in _ + X]scalemx1 -scalerDl scalerA scalemx1.
by congr (_%:M); rewrite exprS; field.
Qed.

Lemma oscillating_not_within_tolerance
  (st : option (RunNewtonRaphsonProcess.statics F)) (k : nat) :
  ~ within_tolerance (newton_S gsl (H_oscillating F) st k.+1)
                     (newton_S gsl (H_oscillating F) st k).
Proof.
move/(_ 0 0); rewrite !newton_S_oscillating !mxE /= !mulr1n exprS mulN1r.
by rewrite -opprD normrN -mulr2n normrMn normr_sign; lra.
Qed.

(** C4: the Newton loop has no iteration cap.  It leaves only through the
    convergence test; as long as the test fails, whatever the number of
    passes already made, it is still running; so that termination is not
    guaranteed: on [H_oscillating] it runs for ever.  The result is a
    matrix or a loop still running: no ConvergenceError is produced. *)
Theorem runNewtonRaphsonProcess_unbounded :
  [/\ forall fuel H S0 st r,
        runNewtonRaphsonProcess gsl fuel H S0 st = Some r ->
        exists2 k, (k < fuel)%N &
          newtonRaphsonConverged (newton_S gsl H st k.+1) (newton_S gsl H st k),
      forall n H S0 st,
        (forall k, (k < n)%N ->
           ~~ newtonRaphsonConverged (newton_S gsl H st k.+1)
                                     (newton_S gsl H st k)) ->
        runNewtonRaphsonProcess gsl n H S0 st = None
    & exists H, forall fuel S0 st,
        runNewtonRaphsonProcess gsl fuel H S0 st = None].
Proof.
split=> [fuel H S0 st r | n H S0 st failing | ].
- rewrite runNewtonRaphsonProcessE.
  by case/newton_loop_exited=> k k_lt [_ ok _]; exists k.
- by rewrite runNewtonRaphsonProcessE; apply: newton_loop_running.
exists (H_oscillating F) => fuel S0 st.
rewrite runNewtonRaphsonProcessE; apply: newton_loop_running => k _.
by apply/newtonRaphsonConvergedP; apply: oscillating_not_within_tolerance.
Qed.

(** *** [computePMatrix] *)

Local Notation P_statics := (computePMatrix_statics gsl).

Lemma first_call_P_constants (c0 c : Controller) :
  same_constants c0 c -> P_cached gsl c0 (computePMatrix_first_call gsl c).
Proof.
by case=> [[_ Ad Qc Rc] [_ I6 Z6 _]]; rewrite /P_cached /= Ad Qc Rc I6 Z6.
Qed.

Lemma P_statics_cached (c0 c : Controller)
  (st : option (ComputePMatrix.statics F)) :
  same_constants c0 c -> P_statics_of gsl c0 st -> P_cached gsl c0 (P_statics c st).
Proof. by case: st => [s | ] //= c0c _; exact: first_call_P_constants. Qed.

(** The constant statics, on a controller whose helpers are set and whose
    R is invertible. *)
Lemma P_statics_spec (c0 c : Controller)
  (st : option (ComputePMatrix.statics F)) :
  same_constants c0 c -> P_statics_of gsl c0 st -> helpers_set c ->
  R c \in unitmx ->
  [/\ ComputePMatrix.N (P_statics c st) = N_spec c,
      ComputePMatrix.R_inverse (P_statics c st) = invmx (R c)
    & ComputePMatrix.A_d_transpose (P_statics c st) = (A_d c)^T].
Proof.
move=> c0c st_ok [I_6E Zero_6E _] R_unit.
have [_ -> -> ->] := P_statics_cached c0c st_ok.
have [[_ AdE QE RE] [_ I6E Z6E _]] := c0c.
rewrite /= /concatenate2x2 /gsl_matrix_scale /gsl_matrix_memcpy.
rewrite /gsl_matrix_transpose_memcpy -AdE -QE -RE -I6E -Z6E I_6E Zero_6E.
by rewrite scaleN1r invert_unit.
Qed.

(** What a call stores when the Newton loop leaves, whatever [invert]
    returns for X1. *)
Lemma computePMatrix_returns (fuel : nat) (c0 c : Controller)
  (st : option (ComputePMatrix.statics F))
  (nr : option (RunNewtonRaphsonProcess.statics F))
  (S0 S : 'M[F]_(6 + 6)) (nr' : RunNewtonRaphsonProcess.statics F) :
  same_constants c0 c -> P_statics_of gsl c0 st -> helpers_set c ->
  R c \in unitmx -> N_spec c + L_spec c \in unitmx ->
  runNewtonRaphsonProcess gsl fuel (H_spec c) S0 nr = Some (S, nr') ->
  exists s',
    [/\ computePMatrix gsl fuel c st nr =
          Some (set_P c (dlsubmx (H_spec c - S)
                         *m invert gsl (ulsubmx (H_spec c - S))
                              (ComputePMatrix.X1_inverse (P_statics c st))),
                s', nr'),
        [/\ ComputePMatrix.N s' = N_spec c, ComputePMatrix.L s' = L_spec c,
            ComputePMatrix.H s' = H_spec c - S & ComputePMatrix.S s' = S]
      & P_statics_of gsl c0 (Some s')].
Proof.
move=> c0c st_ok helpers R_unit NL_unit newton.
have [NE RinvE AdTE] := P_statics_spec c0c st_ok helpers R_unit.
have [nQ0 N0 Rinv0 AdT0] := P_statics_cached c0c st_ok.
have [I_6E Zero_6E _] := helpers.
rewrite /computePMatrix -/(P_statics c st).
rewrite dgemm_NT_product !dgemm_NN_product /gsl_matrix_add /gsl_matrix_sub.
rewrite /gsl_matrix_memcpy /concatenate2x2 NE RinvE AdTE I_6E Zero_6E.
rewrite mulmxA -/(L_spec c) invert_unit // -/(H_spec c).
have -> : runNewtonRaphsonProcess gsl fuel (H_spec c)
            (ComputePMatrix.S (P_statics c st)) nr = Some (S, nr').
  by rewrite -newton !runNewtonRaphsonProcessE.
rewrite /= dgemm_NN_product; eexists; split=> //.
by split; rewrite [LHS]/= -?NE -?RinvE -?AdTE.
Qed.

(** C2: for every per-cycle input B_d, on a controller whose helper
    matrices are set and for which the inverses the formulas name exist,
    [computePMatrix] works with the constant N = [[A_d, 0], [-Q, I]], kept
    in its statics, forms L = [[I, B_d R^-1 B_d^T], [0, A_d^T]] and
    H = (N + L)^-1 (N - L), and, when the Newton loop on H leaves with S,
    stores P = X2 X1^-1, X1 and X2 being the top-left and bottom-left 6x6
    blocks of H - S. *)
Theorem computePMatrix_spec (fuel : nat) (c0 c : Controller)
  (st : option (ComputePMatrix.statics F))
  (nr : option (RunNewtonRaphsonProcess.statics F))
  (S0 S : 'M[F]_(6 + 6)) (nr' : RunNewtonRaphsonProcess.statics F) :
  same_constants c0 c -> P_statics_of gsl c0 st -> helpers_set c ->
  R c \in unitmx -> N_spec c + L_spec c \in unitmx ->
  runNewtonRaphsonProcess gsl fuel (H_spec c) S0 nr = Some (S, nr') ->
  ulsubmx (H_spec c - S) \in unitmx ->
  exists c' s',
    [/\ computePMatrix gsl fuel c st nr = Some (c', s', nr'),
        [/\ ComputePMatrix.N s' = N_spec c, ComputePMatrix.L s' = L_spec c,
            ComputePMatrix.H s' = H_spec c - S & ComputePMatrix.S s' = S],
        P c' = P_spec (H_spec c) S,
        c' = set_P c (P_spec (H_spec c) S)
      & P_statics_of gsl c0 (Some s')].
Proof.
move=> c0c st_ok helpers R_unit NL_unit newton X1_unit.
have [s' [computed statics cached]] :=
  computePMatrix_returns c0c st_ok helpers R_unit NL_unit newton.
move: computed; rewrite invert_unit // -/(P_spec (H_spec c) S) => computed.
by exists (set_P c (P_spec (H_spec c) S)), s'.
Qed.

(** *** No error path *)

(** What [computeGainMatrix] stores, whatever [invert] returns. *)
Lemma computeGainMatrix_stores (c : Controller)
  (st : option (ComputeGainMatrix.statics F)) :
  let inv0 := if st is Some s then ComputeGainMatrix.R_plus_BdT_P_Bd_inv s
              else gsl_matrix_alloc gsl 3 3 in
  let c' := (computeGainMatrix gsl c st).1 in
  [/\ K c' = invert gsl (R c + (B_d c)^T *m (P c *m B_d c)) inv0
             *m ((B_d c)^T *m (P c *m A_d c)),
      A_d c' = A_d c & B_d c' = B_d c].
Proof.
move=> inv0 c'; split=> //.
rewrite /c' /computeGainMatrix /= !dgemm_NN_product !dgemm_TN_product.
by rewrite /gsl_matrix_add /gsl_matrix_memcpy /inv0; case: st @inv0 @c'.
Qed.


(** C1 (amended): [computeBMatrices] has no check on b and no error
    result.  For every b, (0, 0, 0) included, the call returns; the
    scale factor of [b]x [b]x it stores is the quotient of 1 by b . b,
    computed unconditionally, and for b = (0, 0, 0) this divisor is 0. *)
Theorem computeBMatrices_unguarded (c : Controller)
  (st : option (ComputeBMatrices.statics F)) :
  let r := computeBMatrices gsl c st in
  [/\ call_void (fun cntl => computeBMatrices gsl cntl st) c = Returned r,
      ComputeBMatrices.quotient r.2 =
        double_div gsl 1 (gsl_blas_ddot (b c) (b c)) *: (bmat r.1 *m bmat r.1)
    & gsl_blas_ddot (0 : 'cV[F]_3) 0 = 0].
Proof.
move=> r; split=> //.
  have [_ _ -> _] := computeBMatrices_stores c st.
  by rewrite ddot_dot bmat_computeBMatrices.
by rewrite /gsl_blas_ddot big1 // => i _; rewrite mxE mul0r.
Qed.

(** *** The error path of [invert] *)

Section ErrorPath.
Variable gsl_st : gsl_status_kernel gsl.

(** A nonsingular matrix is inverted and the call returns. *)
Lemma invert_call_unit (n : nat) (mat inv : 'M[F]_n) :
  mat \in unitmx -> invert_call gsl mat inv = Returned (invmx mat).
Proof.
move=> mat_unit; rewrite /invert_call /gsl_matrix_memcpy.
by rewrite LU_decomp_status // LU_invert_status // mat_unit LU_invertE.
Qed.

(** On a singular matrix [gsl_linalg_LU_invert] raises [GSL_EDOM] and the
    process is aborted. *)
Lemma invert_call_singular (n : nat) (mat inv : 'M[F]_n) :
  mat \notin unitmx -> invert_call gsl mat inv = Aborted GSL_EDOM.
Proof.
move=> mat_singular; rewrite /invert_call /gsl_matrix_memcpy.
by rewrite LU_decomp_status // LU_invert_status // (negPf mat_singular).
Qed.

(** C5 (amended): [invert] has no conditioning threshold and no error
    result.  Every nonsingular matrix, however badly conditioned, is
    inverted: the call returns and [inv] holds the inverse, with which the
    caller goes on.  On a singular matrix [gsl_linalg_LU_invert] raises
    [GSL_EDOM], and since [controller.c] installs no error handler the
    default handler of GSL aborts the process inside [invert].  In no case
    does an error reach the caller, and whenever the call returns the
    matrix was nonsingular and [inv] holds its inverse: no caller goes on
    with an undefined result. *)
Theorem invert_no_error_result (n : nat) (mat inv : 'M[F]_n) :
  [/\ mat \in unitmx -> invert_call gsl mat inv = Returned (invmx mat),
      mat \notin unitmx -> invert_call gsl mat inv = Aborted GSL_EDOM,
      forall e, invert_call gsl mat inv <> Raised e
    & forall X, invert_call gsl mat inv = Returned X ->
        [/\ mat \in unitmx, X = invmx mat & X = invert gsl mat inv]].
Proof.
split=> [ | | e | X].
- exact: invert_call_unit.
- exact: invert_call_singular.
- case mat_unit: (mat \in unitmx); first by rewrite invert_call_unit.
  by rewrite invert_call_singular ?mat_unit.
case mat_unit: (mat \in unitmx); last by rewrite invert_call_singular ?mat_unit.
by rewrite invert_call_unit // invert_unit // => -[<-].
Qed.

End ErrorPath.

(** *** The example controller *)

Lemma unit_controller_constants :
  same_constants (unit_controller F) (unit_controller F).
Proof. by []. Qed.

Lemma unit_controller_helpers : helpers_set (unit_controller F).
Proof. by []. Qed.

Lemma unit_controller_gain_unit :
  R (unit_controller F)
  + (B_d (unit_controller F))^T *m P (unit_controller F)
    *m B_d (unit_controller F) \in unitmx.
Proof. by rewrite /= mulmx0 addr0 unitmx1. Qed.

Lemma unit_controller_field :
  dot (b (unit_controller F)) (b (unit_controller F)) != 0.
Proof.
rewrite /dot /= mxE; under eq_bigr do rewrite !mxE mulr1.
by rewrite big_const_ord iter_addr_0 pnatr_eq0.
Qed.

Lemma unit_controller_NL :
  N_spec (unit_controller F) + L_spec (unit_controller F) = 1%:M.
Proof.
rewrite /N_spec /L_spec /= add_block_mx oppr0 !trmx0 !mul0mx.
by rewrite !addr0 !add0r -scalar_mx_block.
Qed.

Lemma unit_controller_H :
  H_spec (unit_controller F) = block_mx (- 1)%:M 0 0 1%:M.
Proof.
rewrite /H_spec unit_controller_NL invmx1 mul1mx /N_spec /L_spec /=.
rewrite opp_block_mx add_block_mx !trmx0 !mul0mx !oppr0 !addr0 add0r.
by rewrite -scaleN1r scalemx1.
Qed.

Lemma unit_controller_H_squared :
  H_spec (unit_controller F) *m H_spec (unit_controller F) = 1%:M.
Proof.
rewrite unit_controller_H mulmx_block !mulmx0 !mul0mx !mulmx1 !addr0 add0r.
by rewrite -scalar_mxM mulrNN mulr1 -scalar_mx_block.
Qed.

Lemma newton_S_seed (H : 'M[F]_(6 + 6))
  (st : option (RunNewtonRaphsonProcess.statics F)) :
  newton_S gsl H st 0 = 1%:M.
Proof. by case: st. Qed.

(** On the example controller the Newton loop leaves after one pass, with
    S = I. *)
Lemma unit_controller_newton (S0 : 'M[F]_(6 + 6))
  (nr : option (RunNewtonRaphsonProcess.statics F)) :
  exists nr', runNewtonRaphsonProcess gsl 1 (H_spec (unit_controller F)) S0 nr
              = Some (1%:M, nr').
Proof.
set H := H_spec _.
have S1 : newton_S gsl H nr 1 = 1%:M.
  rewrite newton_S_next newton_S_seed.
  rewrite invert_unit ?unitmx1 // invmx1 mul1mx unit_controller_H_squared.
  by rewrite -mulr2n -scaler_nat scalerA mulVf ?scale1r // pnatr_eq0.
have ok : newtonRaphsonConverged (newton_S gsl H nr 1) (newton_S gsl H nr 0).
  apply/newtonRaphsonConvergedP => i j; rewrite S1 newton_S_seed.
  by rewrite subrr normr0; lra.
have failing j : (j < 0)%N ->
    ~~ newtonRaphsonConverged (newton_S gsl H nr j.+1) (newton_S gsl H nr j).
  by [].
have exits :=
  newton_loop_exits (m := newton_state gsl H nr 0) failing ok (ltnSn 0).
have [nr' exited] : exists nr',
    runNewtonRaphsonProcess gsl 1 H S0 nr = Some (newton_S gsl H nr 1, nr').
  by rewrite runNewtonRaphsonProcessE; eexists; exact: exits.
by exists nr'; rewrite exited S1.
Qed.

Lemma unit_controller_X1 :
  ulsubmx (H_spec (unit_controller F) - 1%:M) \in unitmx.
Proof.
rewrite unit_controller_H (scalar_mx_block 6 6 1) opp_block_mx add_block_mx.
rewrite block_mxKul -raddfB /= scalar_unitmx //.
by rewrite -opprD oppr_eq0 -mulr2n pnatr_eq0.
Qed.

(** *** Block upper triangular matrices *)

Lemma dlsubmx_mul (A B : 'M[F]_(6 + 6)) :
  dlsubmx (A *m B) = dlsubmx A *m ulsubmx B + drsubmx A *m dlsubmx B.
Proof. by rewrite -{1}(submxK A) -{1}(submxK B) mulmx_block block_mxKdl. Qed.

Lemma block_upperM (A B : 'M[F]_(6 + 6)) :
  block_upper A -> block_upper B -> block_upper (A *m B).
Proof.
by rewrite /block_upper dlsubmx_mul => -> ->; rewrite mul0mx mulmx0 addr0.
Qed.

Lemma block_upperD (A B : 'M[F]_(6 + 6)) :
  block_upper A -> block_upper B -> block_upper (A + B).
Proof.
rewrite /block_upper => A0 B0.
by rewrite -(submxK A) -(submxK B) add_block_mx block_mxKdl A0 B0 addr0.
Qed.

Lemma block_upperZ (a : F) (A : 'M[F]_(6 + 6)) :
  block_upper A -> block_upper (a *: A).
Proof.
rewrite /block_upper => A0.
by rewrite -(submxK A) scale_block_mx block_mxKdl A0 scaler0.
Qed.

Lemma block_upperN (A : 'M[F]_(6 + 6)) : block_upper A -> block_upper (- A).
Proof. by move=> A0; rewrite -scaleN1r; apply: block_upperZ. Qed.

Lemma block_upper1 : block_upper (1%:M : 'M[F]_(6 + 6)).
Proof. by rewrite /block_upper (scalar_mx_block 6 6 1) block_mxKdl. Qed.

Lemma block_upperV (A : 'M[F]_(6 + 6)) :
  A \in unitmx -> block_upper A -> block_upper (invmx A).
Proof.
rewrite /block_upper => A_unit A0.
have AE : A = block_mx (ulsubmx A) (ursubmx A) 0 (drsubmx A).
  by rewrite -A0 submxK.
have := A_unit; rewrite unitmxE {1}AE det_ublock unitrM -!unitmxE.
case/andP=> ul_unit dr_unit.
pose W := block_mx (invmx (ulsubmx A))
            (- invmx (ulsubmx A) *m ursubmx A *m invmx (drsubmx A))
            0 (invmx (drsubmx A)).
have AW : A *m W = 1%:M.
  rewrite {1}AE mulmx_block !mulmx0 !mul0mx !addr0 add0r !mulmxV //.
  rewrite !mulmxA mulmxN mulNmx mulmxV // mul1mx mulNmx addNr.
  by rewrite -scalar_mx_block.
have <- : W = invmx A.
  by rewrite -[LHS]mul1mx -(mulVmx A_unit) -mulmxA AW mulmx1.
by rewrite block_mxKdl.
Qed.

(** With no state cost the matrices of the solver are block upper
    triangular. *)
Lemma H_spec_upper (c : Controller) :
  Q c = 0 -> N_spec c + L_spec c \in unitmx -> block_upper (H_spec c).
Proof.
move=> Q0 NL_unit.
have N_up : block_upper (N_spec c).
  by rewrite /block_upper /N_spec block_mxKdl Q0 oppr0.
have L_up : block_upper (L_spec c) by rewrite /block_upper /L_spec block_mxKdl.
apply: block_upperM; first by apply: block_upperV => //; apply: block_upperD.
by apply: block_upperD => //; apply: block_upperN.
Qed.

Lemma newton_S_upper (H : 'M[F]_(6 + 6))
  (st : option (RunNewtonRaphsonProcess.statics F)) (k : nat) :
  block_upper H ->
  (forall j, (j < k)%N -> newton_S gsl H st j \in unitmx) ->
  block_upper (newton_S gsl H st k).
Proof.
move=> H_up; elim: k => [ | k IHk] units.
  by rewrite newton_S_seed; apply: block_upper1.
have Sk_up : block_upper (newton_S gsl H st k).
  by apply: IHk => j j_lt; apply: units; apply: ltnW.
rewrite newton_S_next invert_unit ?units //.
apply/block_upperZ/block_upperD => //.
by apply: block_upperM; [apply: block_upperV; rewrite ?units | apply: block_upperM].
Qed.

Lemma symmetric_psd0 (n : nat) : symmetric_psd (0 : 'M[F]_n).
Proof. by split=> [ | v]; rewrite ?trmx0 // mulmx0 mul0mx mxE. Qed.

(** With no state cost the solver stores P = 0 whenever the loop
    leaves. *)
Lemma zero_state_cost_P (fuel : nat) (c0 c : Controller)
  (st : option (ComputePMatrix.statics F))
  (nr : option (RunNewtonRaphsonProcess.statics F))
  (S0 S : 'M[F]_(6 + 6)) (nr' : RunNewtonRaphsonProcess.statics F) :
  same_constants c0 c -> P_statics_of gsl c0 st -> helpers_set c ->
  Q c = 0 -> R c \in unitmx -> N_spec c + L_spec c \in unitmx ->
  (forall k, (k < fuel)%N -> newton_S gsl (H_spec c) nr k \in unitmx) ->
  runNewtonRaphsonProcess gsl fuel (H_spec c) S0 nr = Some (S, nr') ->
  exists s', computePMatrix gsl fuel c st nr = Some (set_P c 0, s', nr').
Proof.
move=> c0c st_ok helpers Q0 R_unit NL_unit units newton.
have [s' [computed _ _]] :=
  computePMatrix_returns c0c st_ok helpers R_unit NL_unit newton.
have S_up : block_upper S.
  move: newton; rewrite runNewtonRaphsonProcessE.
  case/newton_loop_exited=> k k_lt [_ _ [-> _]].
  apply: (newton_S_upper (st := nr) (k := k.+1)); first exact: H_spec_upper.
  by move=> j; rewrite ltnS => j_le; apply: units; apply: leq_ltn_trans k_lt.
have X2_0 : dlsubmx (H_spec c - S) = 0.
  by apply: block_upperD; [apply: H_spec_upper | apply: block_upperN].
by exists s'; rewrite computed X2_0 mul0mx.
Qed.

(** With P = 0 the gain is zero and the closed loop is A_d. *)
Lemma zero_P_gain (c : Controller)
  (gst : option (ComputeGainMatrix.statics F)) :
  P c = 0 ->
  K (computeGainMatrix gsl c gst).1 = 0 /\
  closed_loop (computeGainMatrix gsl c gst).1 = A_d c.
Proof.
move=> P0; have [KE AdE _] := computeGainMatrix_stores c gst.
have K0 : K (computeGainMatrix gsl c gst).1 = 0.
  by rewrite KE P0 !mul0mx !mulmx0.
by rewrite /closed_loop K0 mulmx0 subr0.
Qed.

(** X22: with a zero state cost Q = 0, whenever the Riccati solver
    returns (R, N + L and the Newton iterates being nonsingular) it returns
    P = 0, which is symmetric positive semi-definite; the gain built from
    it is K = 0 and the closed-loop matrix A_d - B_d K is A_d itself, whose
    eigenvalues are inside the unit circle only when those of A_d are. *)
Theorem computePMatrix_zero_state_cost (fuel : nat) (c0 c : Controller)
  (st : option (ComputePMatrix.statics F))
  (nr : option (RunNewtonRaphsonProcess.statics F))
  (S0 S : 'M[F]_(6 + 6)) (nr' : RunNewtonRaphsonProcess.statics F) :
  same_constants c0 c -> P_statics_of gsl c0 st -> helpers_set c ->
  Q c = 0 -> R c \in unitmx -> N_spec c + L_spec c \in unitmx ->
  (forall k, (k < fuel)%N -> newton_S gsl (H_spec c) nr k \in unitmx) ->
  runNewtonRaphsonProcess gsl fuel (H_spec c) S0 nr = Some (S, nr') ->
  exists c' s',
    [/\ computePMatrix gsl fuel c st nr = Some (c', s', nr'),
        P c' = 0 /\ symmetric_psd (P c'),
        forall gst, K (computeGainMatrix gsl c' gst).1 = 0
      & forall gst,
          closed_loop (computeGainMatrix gsl c' gst).1 = A_d c /\
          (schur_stable (closed_loop (computeGainMatrix gsl c' gst).1)
           <-> schur_stable (A_d c))].
Proof.
move=> c0c st_ok helpers Q0 R_unit NL_unit units newton.
have [s' computed] :=
  zero_state_cost_P c0c st_ok helpers Q0 R_unit NL_unit units newton.
exists (set_P c 0), s'; split=> // [ | gst | gst].
- by split=> //; apply: symmetric_psd0.
- by have [] := @zero_P_gain (set_P c 0) gst (erefl _).
- by have [_ ->] := @zero_P_gain (set_P c 0) gst (erefl _).
Qed.

(** *** The example with marginal modes *)

Local Notation mc := (marginal_controller F).
Local Notation pe := (@pe F).
Local Notation pq := (@pq F).

Lemma pe_mul (a b c d : F) : pe a b *m pe c d = pe (a * c) (b * d).
Proof.
rewrite /pe mulmx_block !mulmx0 !mul0mx !addr0 !add0r.
by rewrite -!scalar_mxM.
Qed.

Lemma pe_add (a b c d : F) : pe a b + pe c d = pe (a + c) (b + d).
Proof. by rewrite /pe add_block_mx !addr0 -!raddfD. Qed.

Lemma pe_opp (a b : F) : - pe a b = pe (- a) (- b).
Proof. by rewrite /pe opp_block_mx !oppr0 -!raddfN. Qed.

Lemma pe_scale (x a b : F) : x *: pe a b = pe (x * a) (x * b).
Proof. by rewrite /pe scale_block_mx !scaler0 -!scale_scalar_mx. Qed.

Lemma pe_tr (a b : F) : (pe a b)^T = pe a b.
Proof. by rewrite /pe tr_block_mx !tr_scalar_mx !trmx0. Qed.

Lemma pe1 : 1%:M = pe 1 1.
Proof. by rewrite /pe -scalar_mx_block. Qed.

Lemma pe0 : 0 = pe 0 0.
Proof. by rewrite /pe -scalar_mx_block -[RHS]scalemx1 scale0r. Qed.

Lemma pq_mul (a1 b1 c1 d1 e1 f1 g1 h1 a2 b2 c2 d2 e2 f2 g2 h2 : F) :
  pq a1 b1 c1 d1 e1 f1 g1 h1 *m pq a2 b2 c2 d2 e2 f2 g2 h2 =
  pq (a1 * a2 + c1 * e2) (b1 * b2 + d1 * f2)
     (a1 * c2 + c1 * g2) (b1 * d2 + d1 * h2)
     (e1 * a2 + g1 * e2) (f1 * b2 + h1 * f2)
     (e1 * c2 + g1 * g2) (f1 * d2 + h1 * h2).
Proof. by rewrite /pq mulmx_block !pe_mul !pe_add. Qed.

Lemma pq_add (a1 b1 c1 d1 e1 f1 g1 h1 a2 b2 c2 d2 e2 f2 g2 h2 : F) :
  pq a1 b1 c1 d1 e1 f1 g1 h1 + pq a2 b2 c2 d2 e2 f2 g2 h2 =
  pq (a1 + a2) (b1 + b2) (c1 + c2) (d1 + d2)
     (e1 + e2) (f1 + f2) (g1 + g2) (h1 + h2).
Proof. by rewrite /pq add_block_mx !pe_add. Qed.

Lemma pq_opp (a b c d e f g h : F) :
  - pq a b c d e f g h = pq (- a) (- b) (- c) (- d) (- e) (- f) (- g) (- h).
Proof. by rewrite /pq opp_block_mx !pe_opp. Qed.

Lemma pq_scale (x a b c d e f g h : F) :
  x *: pq a b c d e f g h =
  pq (x * a) (x * b) (x * c) (x * d) (x * e) (x * f) (x * g) (x * h).
Proof. by rewrite /pq scale_block_mx !pe_scale. Qed.

Lemma pq1 : 1%:M = pq 1 1 0 0 0 0 1 1.
Proof. by rewrite /pq -pe1 -pe0 -scalar_mx_block. Qed.

(** A matrix with a right inverse is invertible, and that is its inverse. *)
Lemma invmx_right (n : nat) (A B : 'M[F]_n) :
  A *m B = 1%:M -> A \in unitmx /\ invmx A = B.
Proof.
move=> AB; have [A_unit _] := mulmx1_unit AB; split=> //.
by rewrite -[RHS]mul1mx -(mulVmx A_unit) -mulmxA AB mulmx1.
Qed.

Local Ltac pq_arith := congr (pq _ _ _ _ _ _ _ _); try by field.

Lemma marginal_G : B_d mc *m invmx (R mc) *m (B_d mc)^T = pe 1 0.
Proof.
rewrite /= invmx1 mulmx1 tr_col_mx trmx1 trmx0 mul_col_row.
by rewrite !mulmx0 !mul0mx mulmx1 /pe raddf0.
Qed.

Lemma marginal_N : N_spec mc = pq 1 0 0 0 0 0 1 1.
Proof. by rewrite /N_spec /= oppr0 /pq -pe1 -pe0. Qed.

Lemma marginal_L : L_spec mc = pq 1 1 1 0 0 0 1 0.
Proof. by rewrite /L_spec marginal_G /= pe_tr /pq -pe1 -pe0. Qed.

Lemma marginal_NL : N_spec mc + L_spec mc = pq 2 1 1 0 0 0 2 1.
Proof. by rewrite marginal_N marginal_L pq_add; pq_arith. Qed.

Lemma marginal_NL_inverse :
  N_spec mc + L_spec mc \in unitmx /\
  invmx (N_spec mc + L_spec mc) = pq 2^-1 1 (- 4^-1) 0 0 0 2^-1 1.
Proof.
by apply: invmx_right; rewrite marginal_NL pq_mul pq1; pq_arith.
Qed.

Lemma marginal_H : H_spec mc = pq 0 (- 1) (- 2^-1) 0 0 0 0 1.
Proof.
have [_ inverse] := marginal_NL_inverse.
rewrite /H_spec inverse marginal_N marginal_L pq_opp pq_add pq_mul.
by pq_arith.
Qed.

Lemma marginal_H_squared : H_spec mc *m H_spec mc = pq 0 1 0 0 0 0 0 1.
Proof. by rewrite marginal_H pq_mul; pq_arith. Qed.

Lemma pq_diag_inverse (t : F) :
  t != 0 ->
  pq t 1 0 0 0 0 t 1 \in unitmx /\
  invmx (pq t 1 0 0 0 0 t 1) = pq t^-1 1 0 0 0 0 t^-1 1.
Proof.
move=> t_neq0; apply: invmx_right; rewrite pq_mul pq1.
by congr (pq _ _ _ _ _ _ _ _); rewrite ?mulr0 ?mul0r ?addr0 ?add0r ?mulr1 ?divff.
Qed.

(** The iterates of the Newton loop on the example: the marginal modes are
    halved at each pass. *)
Lemma marginal_S (st : option (RunNewtonRaphsonProcess.statics F)) (k : nat) :
  newton_S gsl (H_spec mc) st k = pq (2 ^- k) 1 0 0 0 0 (2 ^- k) 1.
Proof.
elim: k => [ | k IHk]; first by rewrite newton_S_seed expr0 invr1 pq1.
have t_neq0 : (2 ^- k : F) != 0 by rewrite invr_eq0 expf_neq0 // pnatr_eq0.
have [S_unit S_inverse] := pq_diag_inverse t_neq0.
rewrite newton_S_next IHk invert_unit // S_inverse marginal_H_squared.
rewrite pq_mul pq_add pq_scale exprS invfM.
by congr (pq _ _ _ _ _ _ _ _); rewrite ?mulr0 ?mul0r ?addr0 ?add0r ?mulr1 //; field.
Qed.

Lemma marginal_S_unit (st : option (RunNewtonRaphsonProcess.statics F))
  (k : nat) : newton_S gsl (H_spec mc) st k \in unitmx.
Proof.
rewrite marginal_S.
by have [] := @pq_diag_inverse (2 ^- k) _; rewrite // invr_eq0 expf_neq0 // pnatr_eq0.
Qed.

Lemma pe_entry_le (t a b : F) (i j : 'I_(3 + 3)) :
  `|a| <= t -> `|b| <= t -> 0 <= t -> `|pe a b i j| <= t.
Proof.
move=> a_le b_le t_ge0; rewrite /pe /block_mx mxE.
by case: (split i) => i'; rewrite mxE; case: (split j) => j';
  rewrite !mxE ?normr0 //; case: (i' == j'); rewrite ?mulr1n ?mulr0n ?normr0.
Qed.

Lemma pq_entry_le (t a b c d e f g h : F) (i j : 'I_(6 + 6)) :
  [/\ `|a| <= t, `|b| <= t, `|c| <= t & `|d| <= t] ->
  [/\ `|e| <= t, `|f| <= t, `|g| <= t & `|h| <= t] ->
  `|pq a b c d e f g h i j| <= t.
Proof.
move=> [a_le b_le c_le d_le] [e_le f_le g_le h_le].
have t_ge0 : 0 <= t by apply: le_trans a_le.
rewrite /pq /block_mx mxE.
by case: (split i) => i'; rewrite mxE; case: (split j) => j';
  apply: pe_entry_le.
Qed.

Lemma block_pe_entry_ul (a b c d e f g h : F) :
  block_mx (pe a b) (pe c d) (pe e f) (pe g h)
    (lshift (3 + 3) (lshift 3 ord0)) (lshift (3 + 3) (lshift 3 ord0)) = a.
Proof. by rewrite block_mxEul /pe block_mxEul mxE eqxx mulr1n. Qed.

Lemma pq_entry_ul (a b c d e f g h : F) : pq a b c d e f g h first_index first_index = a.
Proof. exact: block_pe_entry_ul. Qed.

Lemma marginal_step (st : option (RunNewtonRaphsonProcess.statics F))
  (k : nat) :
  newton_S gsl (H_spec mc) st k.+1 - newton_S gsl (H_spec mc) st k =
  pq (- 2 ^- k.+1) 0 0 0 0 0 (- 2 ^- k.+1) 0.
Proof.
rewrite !marginal_S pq_opp pq_add exprS invfM; set t := 2 ^- k.
by congr (pq _ _ _ _ _ _ _ _); rewrite ?subrr ?oppr0 ?addr0 //; field.
Qed.

Lemma within_toleranceE (S S' : 'M[F]_(6 + 6)) :
  within_tolerance S S' <-> forall i j, `|(S - S') i j| <= 1 / 1000.
Proof. by split=> close i j; have := close i j; rewrite !mxE. Qed.

(** 2^-n against the tolerance, through the naturals. *)
Lemma tolerance_pow2 (n : nat) :
  ((2 ^- n : F) <= 1 / 1000) = (1000 <= 2 ^ n)%N.
Proof.
rewrite div1r -natrX lef_pV2 ?ler_nat // posrE ltr0n //.
by rewrite expn_gt0.
Qed.

(** The test fails after each of the first nine passes and succeeds after
    the tenth. *)
Lemma marginal_running (st : option (RunNewtonRaphsonProcess.statics F))
  (k : nat) :
  (k < 9)%N ->
  ~ within_tolerance (newton_S gsl (H_spec mc) st k.+1)
                     (newton_S gsl (H_spec mc) st k).
Proof.
move=> k_lt /within_toleranceE/(_ first_index first_index).
rewrite marginal_step pq_entry_ul normrN ger0_norm ?invr_ge0 ?exprn_ge0 //.
rewrite tolerance_pow2; apply/negP; rewrite -ltnNge.
by apply: (@leq_ltn_trans (2 ^ 9)); rewrite ?leq_pexp2l.
Qed.

Lemma marginal_exit (st : option (RunNewtonRaphsonProcess.statics F)) :
  within_tolerance (newton_S gsl (H_spec mc) st 10)
                   (newton_S gsl (H_spec mc) st 9).
Proof.
apply/within_toleranceE => i j; rewrite marginal_step.
have small : `|- 2 ^- 10 : F| <= 1 / 1000.
  by rewrite normrN ger0_norm ?invr_ge0 ?exprn_ge0 // tolerance_pow2.
have zero : `|0 : F| <= 1 / 1000 by rewrite normr0; lra.
by apply: pq_entry_le; split.
Qed.

(** The function leaves with the iterate after the first pass whose test
    succeeds. *)
Lemma runNewtonRaphsonProcess_exits (fuel k : nat) (H S0 : 'M[F]_(6 + 6))
  (st : option (RunNewtonRaphsonProcess.statics F)) :
  (forall j, (j < k)%N ->
     ~~ newtonRaphsonConverged (newton_S gsl H st j.+1) (newton_S gsl H st j)) ->
  newtonRaphsonConverged (newton_S gsl H st k.+1) (newton_S gsl H st k) ->
  (k < fuel)%N ->
  exists nr',
    runNewtonRaphsonProcess gsl fuel H S0 st
    = Some (newton_S gsl H st k.+1, nr').
Proof.
move=> failing ok k_lt.
have exits :=
  newton_loop_exits (m := newton_state gsl H st 0) failing ok k_lt.
by rewrite runNewtonRaphsonProcessE; eexists; exact: exits.
Qed.

(** On the example the loop leaves after ten passes. *)
Lemma marginal_newton (S0 : 'M[F]_(6 + 6))
  (nr : option (RunNewtonRaphsonProcess.statics F)) :
  exists nr',
    runNewtonRaphsonProcess gsl 10 (H_spec mc) S0 nr
    = Some (newton_S gsl (H_spec mc) nr 10, nr').
Proof.
have failing j : (j < 9)%N ->
    ~~ newtonRaphsonConverged (newton_S gsl (H_spec mc) nr j.+1)
                              (newton_S gsl (H_spec mc) nr j).
  by move=> j_lt; apply/newtonRaphsonConvergedP; apply: marginal_running.
have ok := introT (newtonRaphsonConvergedP _ _) (marginal_exit nr).
exact: (runNewtonRaphsonProcess_exits S0 failing ok (ltnSn 9)).
Qed.
Lemma schur_stable0 (n : nat) : schur_stable (0 : 'M[F]_n).
Proof.
move=> C f z /eigenvalueP [v]; rewrite map_mx0 mulmx0 => /esym/eqP.
rewrite scaler_eq0 => /orP [/eqP -> _ | /eqP -> ]; first by rewrite normr0.
by rewrite eqxx.
Qed.

Lemma marginal_feedback :
  pe 1 0 - col_mx 1%:M 0 *m row_mx 1%:M 0 = 0 :> 'M[F]_(3 + 3).
Proof.
by rewrite mul_col_row !mulmx0 !mul0mx mulmx1 /pe raddf0 subrr.
Qed.

Lemma marginal_stabilizable : stabilizable (A_d mc) (B_d mc).
Proof.
exists (row_mx 1%:M 0).
have -> : A_d mc - B_d mc *m row_mx 1%:M 0 = 0 by exact: marginal_feedback.
exact: schur_stable0.
Qed.

Lemma symmetric_pd1 (n : nat) : symmetric_pd (1%:M : 'M[F]_n).
Proof.
split=> [ | v v_neq0]; first exact: trmx1.
have ge0 (i : 'I_n) : true -> 0 <= v^T 0 i * v i 0.
  by rewrite mxE -expr2 sqr_ge0.
rewrite mulmx1 mxE lt_def (sumr_ge0 _ ge0) andbT.
apply: contraNneq v_neq0 => /eqP; rewrite (psumr_eq0 _ ge0).
move/allP => all0; apply/eqP/colP => i; rewrite [RHS]mxE.
have := all0 i (mem_index_enum _); rewrite mxE -expr2 sqrf_eq0 /=.
by move/eqP.
Qed.

Lemma marginal_eigenvector :
  row_mx (const_mx 1) 0 *m pe 1 0 = 1 *: row_mx (const_mx 1) 0
  :> 'rV[F]_(3 + 3).
Proof.
by rewrite /pe mul_row_block !mulmx0 !mul0mx mulmx1 !addr0 scale1r.
Qed.

Lemma marginal_eigenvector_neq0 :
  row_mx (const_mx 1) 0 != 0 :> 'rV[F]_(3 + 3).
Proof.
apply/negP => /eqP/rowP/(_ (lshift 3 0)); rewrite row_mxEl !mxE.
by move/eqP; rewrite oner_eq0.
Qed.

Lemma marginal_unstable : ~ schur_stable (A_d mc).
Proof.
rewrite /schur_stable => stable.
have eig : eigenvalue (A_d mc) 1.
  apply/eigenvalueP.
  exists (row_mx (const_mx 1) 0 : 'rV_(3 + 3)).
    exact: marginal_eigenvector.
  exact: marginal_eigenvector_neq0.
have eig' : eigenvalue (map_mx idfun (A_d mc)) 1 by rewrite map_mx_id.
have := stable F idfun 1 eig'.
by rewrite normr1 ltxx.
Qed.

(** *** An example with positive definite costs *)

Section Stiff.
Variable a : F.
Hypothesis a_ge : 1998 <= a.

Local Notation sc := (stiff_controller a).
Local Notation D := (a ^+ 2 + 2 * a + 2).

Lemma stiff_D_neq0 : D != 0.
Proof. by rewrite gt_eqF //; nra. Qed.

Lemma stiff_G : B_d sc *m invmx (R sc) *m (B_d sc)^T = pe 1 0.
Proof.
rewrite /= invmx1 mulmx1 tr_col_mx trmx1 trmx0 mul_col_row.
by rewrite !mulmx0 !mul0mx mulmx1 /pe raddf0.
Qed.

Lemma stiff_N : N_spec sc = pq a 0 0 0 (- 1) (- 1) 1 1.
Proof. by rewrite /N_spec /= /pq -pe0 [in - _]pe1 pe_opp -pe1. Qed.

Lemma stiff_L : L_spec sc = pq 1 1 1 0 0 0 a 0.
Proof. by rewrite /L_spec stiff_G /= pe_tr /pq -pe1 -pe0. Qed.

Lemma stiff_NL_inverse :
  N_spec sc + L_spec sc \in unitmx /\
  invmx (N_spec sc + L_spec sc)
  = pq ((a + 1) / D) 1 (- D^-1) 0 D^-1 1 ((a + 1) / D) 1.
Proof.
have D_neq0 := stiff_D_neq0.
by apply: invmx_right; rewrite stiff_N stiff_L pq_add pq_mul pq1; pq_arith.
Qed.

Lemma stiff_H :
  H_spec sc = pq (a ^+ 2 / D) (- 1) (- 2 / D) 0 (- 2 / D) (- 2)
                 (- a ^+ 2 / D) 1.
Proof.
have D_neq0 := stiff_D_neq0; have [_ inverse] := stiff_NL_inverse.
rewrite /H_spec inverse stiff_N stiff_L pq_opp pq_add pq_mul.
by pq_arith.
Qed.

Lemma stiff_H_squared :
  H_spec sc *m H_spec sc
  = pq ((a ^+ 2 - 2 * a + 2) / D) 1 0 0 0 0 ((a ^+ 2 - 2 * a + 2) / D) 1.
Proof.
by have D_neq0 := stiff_D_neq0; rewrite stiff_H pq_mul; pq_arith.
Qed.

(** The first iterate of the loop. *)
Lemma stiff_S (st : option (RunNewtonRaphsonProcess.statics F)) :
  newton_S gsl (H_spec sc) st 1
  = pq ((a ^+ 2 + 2) / D) 1 0 0 0 0 ((a ^+ 2 + 2) / D) 1.
Proof.
have D_neq0 := stiff_D_neq0.
rewrite newton_S_next newton_S_seed invert_unit ?unitmx1 // invmx1 mul1mx.
by rewrite stiff_H_squared pq1 pq_add pq_scale; pq_arith.
Qed.

(** It is within the tolerance of the seed: the loop leaves after one
    pass. *)
Lemma stiff_exit (st : option (RunNewtonRaphsonProcess.statics F)) :
  within_tolerance (newton_S gsl (H_spec sc) st 1)
                   (newton_S gsl (H_spec sc) st 0).
Proof.
have a_ge' := a_ge; have D_neq0 := stiff_D_neq0.
have D_gt0 : 0 < D by nra.
apply/within_toleranceE => i j; rewrite stiff_S newton_S_seed pq1.
rewrite pq_opp pq_add.
have step : (a ^+ 2 + 2) / D + - 1 = - (2 * a / D) by field.
have a_ge0 : 0 <= 2 * a by lra.
have nonneg : 0 <= 2 * a / D by rewrite divr_ge0 // ltW.
have small : `|- (2 * a / D)| <= 1 / 1000.
  rewrite normrN (ger0_norm nonneg) ler_pdivrMr // mulrAC mul1r.
  by rewrite ler_pdivlMr ?ltr0n //; nra.
have zero : `|0 : F| <= 1 / 1000 by rewrite normr0; lra.
by apply: pq_entry_le; split; rewrite ?step ?addrN ?addr0.
Qed.

Lemma stiff_newton (S0 : 'M[F]_(6 + 6))
  (nr : option (RunNewtonRaphsonProcess.statics F)) :
  exists nr',
    runNewtonRaphsonProcess gsl 1 (H_spec sc) S0 nr
    = Some (newton_S gsl (H_spec sc) nr 1, nr').
Proof.
have failing j : (j < 0)%N ->
    ~~ newtonRaphsonConverged (newton_S gsl (H_spec sc) nr j.+1)
                              (newton_S gsl (H_spec sc) nr j).
  by [].
have ok := introT (newtonRaphsonConvergedP _ _) (stiff_exit nr).
exact: (runNewtonRaphsonProcess_exits S0 failing ok (ltnSn 0)).
Qed.

(** The two left blocks of H - S are the same invertible matrix, so that
    the solver stores P = I. *)
Lemma stiff_blocks (st : option (RunNewtonRaphsonProcess.statics F)) :
  H_spec sc - newton_S gsl (H_spec sc) st 1
  = pq (- 2 / D) (- 2) (- 2 / D) 0 (- 2 / D) (- 2) (- 2 * (a ^+ 2 + 1) / D) 0.
Proof.
have D_neq0 := stiff_D_neq0.
by rewrite stiff_S stiff_H pq_opp pq_add; pq_arith.
Qed.

Lemma pe_unit (s t : F) : s != 0 -> t != 0 -> pe s t \in unitmx.
Proof.
move=> s_neq0 t_neq0.
have [] // := @invmx_right _ (pe s t) (pe s^-1 t^-1).
by rewrite pe_mul !divff // -pe1.
Qed.

Lemma stiff_P :
  exists s' nr',
    computePMatrix gsl 1 sc None None = Some (set_P sc 1%:M, s', nr').
Proof.
have D_neq0 := stiff_D_neq0.
have [nr' newton] := stiff_newton 0 None.
have [NL_unit _] := stiff_NL_inverse.
have c0c : same_constants sc sc by [].
have st_ok : P_statics_of gsl sc None by [].
have helpers : helpers_set sc by [].
have R_unit : R sc \in unitmx by exact: unitmx1.
have [s' [computed _ _]] :=
  computePMatrix_returns c0c st_ok helpers R_unit NL_unit newton.
have two_neq0 : - 2 != 0 :> F by rewrite oppr_eq0 pnatr_eq0.
have X1_unit : pe (- 2 / D) (- 2) \in unitmx.
  by apply: pe_unit; rewrite ?mulf_neq0 ?invr_eq0.
exists s', nr'; rewrite computed stiff_blocks /pq block_mxKul block_mxKdl.
by rewrite invert_unit // mulmxV.
Qed.

(** The gain built from P = I halves the unstable multiplier. *)
Lemma stiff_gain (K0 : 'M[F]_3) :
  K0 = invmx (1%:M + (col_mx 1%:M 0)^T *m (1%:M *m col_mx 1%:M (0 : 'M_3))) ->
  pe a 0 - col_mx 1%:M 0 *m (K0 *m ((col_mx 1%:M 0)^T *m (1%:M *m pe a 0)))
  = pe (a / 2) 0.
Proof.
rewrite !mul1mx tr_col_mx trmx1 trmx0 mul_row_col mulmx1 mulmx0 addr0.
rewrite -raddfD /= invmx_scalar => ->.
rewrite /pe mul_row_block !mulmx0 !mul0mx !mul1mx !addr0 mul_mx_row mulmx0.
rewrite mul_col_row !mul0mx mul1mx -scalar_mxM opp_block_mx add_block_mx.
rewrite !oppr0 !addr0 -raddfB /= mulmx0 subr0; congr (block_mx _%:M _ _ _).
by field.
Qed.

Lemma stiff_gain_unit :
  R (set_P sc 1%:M)
  + (B_d (set_P sc 1%:M))^T *m (P (set_P sc 1%:M) *m B_d (set_P sc 1%:M))
  \in unitmx.
Proof.
rewrite /= mul1mx tr_col_mx trmx1 trmx0 mul_row_col mulmx1 mulmx0 addr0.
by rewrite -raddfD /= scalar_unitmx // -mulr2n pnatr_eq0.
Qed.

Lemma stiff_closed_loop (gst : option (ComputeGainMatrix.statics F)) :
  closed_loop (computeGainMatrix gsl (set_P sc 1%:M) gst).1 = pe (a / 2) 0.
Proof.
have [KE A_dE B_dE] := computeGainMatrix_stores (set_P sc 1%:M) gst.
have gain_unit := stiff_gain_unit.
rewrite /closed_loop KE A_dE B_dE invert_unit //.
exact: (stiff_gain (erefl _)).
Qed.

Lemma stiff_unstable : ~ schur_stable (pe (a / 2) 0).
Proof.
have a_ge' := a_ge; rewrite /schur_stable => stable.
have eig : eigenvalue (pe (a / 2) 0) (a / 2).
  apply/eigenvalueP; exists (row_mx (const_mx 1) 0 : 'rV_(3 + 3)).
    rewrite /pe mul_row_block !mulmx0 !mul0mx !addr0 scale_row_mx scaler0.
    by rewrite mul_mx_scalar.
  exact: marginal_eigenvector_neq0.
have eig' : eigenvalue (map_mx idfun (pe (a / 2) 0)) (a / 2).
  by rewrite map_mx_id.
have := stable F idfun (a / 2) eig'.
by rewrite ger0_norm; lra.
Qed.

Lemma stiff_feedback :
  pe a 0 - col_mx 1%:M 0 *m row_mx a%:M 0 = 0 :> 'M[F]_(3 + 3).
Proof.
by rewrite mul_col_row !mul0mx !mul1mx /pe raddf0 subrr.
Qed.

Lemma stiff_stabilizable : stabilizable (A_d sc) (B_d sc).
Proof.
exists (row_mx a%:M 0).
have -> : A_d sc - B_d sc *m row_mx a%:M 0 = 0 by exact: stiff_feedback.
exact: schur_stable0.
Qed.

End Stiff.

End Properties.

(** ** Further properties

    What the functions do beyond the formulas above: the fields they
    write, the geometry of the input matrices, the caches, the Newton loop
    against the iteration of the specification, and the controller after
    [initializeController]. *)

Section FurtherProperties.
Variable F : realFieldType.
Variable gsl : gsl_kernel F.

Local Notation Controller := (Controller F).


(** *** [sendMTInputs] *)

(** X1: [sendMTInputs] overwrites u with -K x, whatever u held before,
    passes the three components of this u to [setMagnetorquer] and changes
    no other field of the controller; for the zero state the command is
    (0, 0, 0), whatever the gain. *)
Theorem sendMTInputs_command (c : Controller) :
  let r := sendMTInputs c in
  [/\ u r.1 = - (K c *m x c),
      r.2 = (u r.1 (@Ordinal 3 0 isT) 0, u r.1 (@Ordinal 3 1 isT) 0,
             u r.1 (@Ordinal 3 2 isT) 0),
      r.1 = set_u c (u r.1)
    & (sendMTInputs (set_x c 0)).2 = (0, 0, 0)].
Proof.
move=> r; have uE (c1 : Controller) : u (sendMTInputs c1).1 = - (K c1 *m x c1).
  by rewrite /= /gsl_blas_dgemv_N scale0r addr0 scaleN1r.
split=> //; first exact: uE.
rewrite /sendMTInputs /gsl_vector_get [u _]/= /gsl_blas_dgemv_N /=.
by rewrite mulmx0 scaler0 scale0r addr0 !mxE.
Qed.

(** *** [updateSensors] *)

(** X2: [updateSensors] writes x and b only, and what it writes depends
    on the readings alone: a second call replaces what the first one
    stored, so that the mean-motion offset is applied once to each reading
    and never accumulates from call to call. *)
Theorem updateSensors_overwrites (env env' : Sensors F) (c : Controller) :
  [/\ updateSensors env' (updateSensors env c) = updateSensors env' c,
      updateSensors env (updateSensors env c) = updateSensors env c
    & updateSensors env c
      = set_b (set_x c (x (updateSensors env c))) (b (updateSensors env c))].
Proof.
rewrite /updateSensors.
case: (getAngularPosition env) => [[x0 x1] x2].
case: (getAngularVelocity env) => [[x3 x4] x5].
case: (getMagneticField env) => [[b0 b1] b2].
case: (getAngularPosition env') => [[y0 y1] y2].
case: (getAngularVelocity env') => [[y3 y4] y5].
by case: (getMagneticField env') => [[d0 d1] d2].
Qed.

(** *** [computeBMatrices] *)

(** X3: calling [computeBMatrices] again on the controller and the
    statics it has just left, the field vector being unchanged, changes
    nothing: it returns the same controller and the same statics. *)
Theorem computeBMatrices_repeatable (c : Controller)
  (st : option (ComputeBMatrices.statics F)) :
  let r := computeBMatrices gsl c st in
  computeBMatrices gsl r.1 (Some r.2) = r.
Proof.
move=> r; rewrite /r /computeBMatrices /=.
by rewrite /gsl_blas_dgemm_NN /concatenate_vertical !scale0r.
Qed.


(** *** The geometry of the field vector *)

Lemma dotE (n : nat) (v w : 'cV[F]_n) : dot v w = \sum_i v i 0 * w i 0.
Proof. by rewrite /dot mxE; apply: eq_bigr => i _; rewrite mxE. Qed.

Lemma dot_self_eq0 (n : nat) (v : 'cV[F]_n) : (dot v v == 0) = (v == 0).
Proof.
rewrite dotE psumr_eq0 => [i _ | ]; first exact: sqr_ge0.
apply/idP/idP => [/allP v0 | /eqP ->]; last first.
  by apply/allP => i _; rewrite mxE mulr0 eqxx.
apply/eqP/colP => i; rewrite mxE; apply/eqP.
by have := v0 i (mem_index_enum i); rewrite /= mulf_eq0 orbb.
Qed.

Lemma dotZ (n : nat) (a : F) (v : 'cV[F]_n) :
  dot (a *: v) (a *: v) = a ^+ 2 * dot v v.
Proof.
rewrite !dotE mulr_sumr; apply: eq_bigr => i _; rewrite !mxE expr2.
by rewrite mulrACA.
Qed.

Lemma skewZ (a : F) (v : 'cV[F]_3) : skew (a *: v) = a *: skew v.
Proof.
apply/matrixP => i j; rewrite !mxE.
case: i => [[|[|[|i]]] Hi] //; case: j => [[|[|[|j]]] Hj] //=;
  by rewrite ?mulr0 ?mulrN.
Qed.

(** [b]x [b]x = b b^T - (b . b) I *)
Lemma skew_sq (v : 'cV[F]_3) :
  skew v *m skew v = v *m v^T - (dot v v)%:M.
Proof.
apply/matrixP => i j; rewrite dotE !mxE !big_ord_recl !big_ord0 !mxE /=.
rewrite ord3_2 ord3_1 ord3_0.
case: i => [[|[|[|i]]] Hi] //; case: j => [[|[|[|j]]] Hj] //=;
  rewrite (bool_irrelevance Hi isT) (bool_irrelevance Hj isT) ?mulr1n ?mulr0n;
  ring.
Qed.

(** X4: with Zero_3 zeroed, for every nonzero field vector b and
    whatever the statics hold, the matrices B_c and B_d that
    [computeBMatrices] stores annihilate b: a dipole command parallel to
    the field has no effect on the state. *)
Theorem computeBMatrices_field_aligned (c : Controller)
  (st : option (ComputeBMatrices.statics F)) :
  Zero_3 c = 0 -> b c != 0 ->
  let r := computeBMatrices gsl c st in
  B_c r.1 *m b c = 0 /\ B_d r.1 *m b c = 0.
Proof.
move=> Zero_3E b_neq0 r.
have [B_cE B_dE _ _] := computeBMatrices_stores gsl c st.
have B_c0 : B_c r.1 *m b c = 0.
  rewrite B_cE Zero_3E mul_col_mx mul0mx -mulmxA -scalemxAl -mulmxA skew_mul.
  by rewrite mulmx0 scaler0 mulmx0 col_mx0.
by split=> //; rewrite B_dE -mulmxA B_c0 mulmx0.
Qed.

(** X5: scaling a nonzero field vector by a nonzero factor a scales
    bmat by a and leaves B_c and B_d unchanged: the input matrices depend
    on the direction of the field only, not on its strength. *)
Theorem computeBMatrices_field_scale (c : Controller)
  (st : option (ComputeBMatrices.statics F)) (a : F) :
  a != 0 -> b c != 0 ->
  let r := computeBMatrices gsl c st in
  let r' := computeBMatrices gsl (set_b c (a *: b c)) st in
  [/\ bmat r'.1 = a *: bmat r.1, B_c r'.1 = B_c r.1 & B_d r'.1 = B_d r.1].
Proof.
move=> a_neq0 b_neq0 r r'.
have bb_neq0 : dot (b c) (b c) != 0 by rewrite dot_self_eq0.
have abb_neq0 : a ^+ 2 * dot (b c) (b c) != 0.
  by rewrite mulf_neq0 // expf_neq0.
have stE : computeBMatrices_statics gsl (set_b c (a *: b c)) st
           = computeBMatrices_statics gsl c st.
  by case: st {r r'}.
have bmatE : bmat r.1 = skew (b c) by exact: bmat_computeBMatrices.
have bmatE' : bmat r'.1 = skew (a *: b c) by exact: bmat_computeBMatrices.
have [B_cE B_dE _ _] := computeBMatrices_stores gsl c st.
have [] := computeBMatrices_stores gsl (set_b c (a *: b c)) st.
rewrite -/r -/r' in B_cE B_dE *.
rewrite stE [b (set_b _ _)]/= [Zero_3 (set_b _ _)]/= skewZ dotZ.
rewrite (double_divE _ _ abb_neq0) => B_cE' B_dE' _ _.
rewrite (double_divE _ _ bb_neq0) in B_cE.
clearbody r r'; rewrite bmatE' bmatE skewZ.
have B_c_same : B_c r'.1 = B_c r.1.
  rewrite B_cE' B_cE; congr (col_mx _ (_ *m _)).
  rewrite -[_ *m (a *: _)]scalemxAr -[(a *: _) *m _]scalemxAl !scalerA.
  by congr (_ *: _); rewrite expr2; field; rewrite a_neq0.
by split=> //; rewrite B_dE' B_dE B_c_same.
Qed.

(** X6: for a nonzero field vector b the matrix [computeBMatrices]
    keeps in its static [quotient], ([b]x [b]x) / (b . b), is
    b b^T / (b . b) - I; it is symmetric, its square is its opposite and it
    annihilates b: it is minus the orthogonal projector onto the plane
    normal to b. *)
Theorem computeBMatrices_quotient_projector (c : Controller)
  (st : option (ComputeBMatrices.statics F)) :
  b c != 0 ->
  let q := ComputeBMatrices.quotient (computeBMatrices gsl c st).2 in
  [/\ q = (dot (b c) (b c))^-1 *: (b c *m (b c)^T) - 1%:M,
      q^T = q, q *m q = - q & q *m b c = 0].
Proof.
move=> b_neq0 q.
have bb_neq0 : dot (b c) (b c) != 0 by rewrite dot_self_eq0.
have [_ _ qE _] := computeBMatrices_stores gsl c st.
have {}qE : q = (dot (b c) (b c))^-1 *: (b c *m (b c)^T) - 1%:M.
  rewrite /q qE double_divE // div1r skew_sq scalerBr.
  by rewrite -[(dot _ _)%:M]scalemx1 scalerA mulVf // scale1r.
have bTb : (b c)^T *m b c = (dot (b c) (b c))%:M.
  by apply/matrixP => i j; rewrite !ord1 /dot !mxE mulr1n.
have q_b : q *m b c = 0.
  rewrite qE mulmxBl mul1mx -scalemxAl -mulmxA bTb mul_mx_scalar scalerA.
  by rewrite mulVf // scale1r subrr.
split=> //.
- by rewrite qE linearB /= linearZ /= trmx_mul trmxK trmx1.
- rewrite {2}qE mulmxBr mulmx1 -scalemxAr mulmxA q_b mul0mx scaler0.
  by rewrite sub0r.
Qed.

(** X7: on a first call with an invertible inertia matrix J and a
    nonzero field vector b, the bottom block B of the stored B_c satisfies
    b^T J B = 0: the torque that any command produces is orthogonal to the
    field. *)
Theorem computeBMatrices_torque_orthogonal (c : Controller) :
  J c \in unitmx -> b c != 0 ->
  let r := computeBMatrices gsl c None in
  (b c)^T *m (J c *m dsubmx (B_c r.1)) = 0.
Proof.
move=> J_unit b_neq0 r.
have [B_cE _ _ _] := computeBMatrices_stores gsl c None.
rewrite -/r in B_cE; clearbody r.
have bT_skew : (b c)^T *m skew (b c) = 0.
  apply: trmx_inj; rewrite trmx_mul trmxK skew_tr mulNmx skew_mul.
  by rewrite oppr0 trmx0.
rewrite B_cE col_mxKd /= invert_unit // mulKVmx // -scalemxAr mulmxA bT_skew.
by rewrite mul0mx scaler0.
Qed.


(** *** What the functions leave alone *)

(** X8: each function writes its own outputs and nothing else in the
    controller: [updateSensors] x and b, [computeBMatrices] bmat, B_c and
    B_d, [computePMatrix] P, [computeGainMatrix] K and [sendMTInputs] u.
    The constant block and the helper matrices are never written. *)
Theorem controller_fields_written (fuel : nat) (env : Sensors F)
  (c : Controller) (stB : option (ComputeBMatrices.statics F))
  (stP : option (ComputePMatrix.statics F))
  (nr : option (RunNewtonRaphsonProcess.statics F))
  (stK : option (ComputeGainMatrix.statics F)) :
  let cS := updateSensors env c in
  let cB := (computeBMatrices gsl c stB).1 in
  let cP := omap (fun r => r.1.1) (computePMatrix gsl fuel c stP nr) in
  let cK := (computeGainMatrix gsl c stK).1 in
  let cU := (sendMTInputs c).1 in
  [/\ cS = set_b (set_x c (x cS)) (b cS),
      cB = set_B_d (set_B_c (set_bmat c (bmat cB)) (B_c cB)) (B_d cB),
      cP = omap (fun c' => set_P c (P c')) cP,
      cK = set_K c (K cK)
    & cU = set_u c (u cU)].
Proof.
move=> cS cB cP cK cU; split=> //.
- rewrite /cS /updateSensors.
  case: (getAngularPosition env) => [[x0 x1] x2].
  case: (getAngularVelocity env) => [[x3 x4] x5].
  by case: (getMagneticField env) => [[b0 b1] b2].
- rewrite /cP /computePMatrix.
  by case: (runNewtonRaphsonProcess _ _ _ _ _).
Qed.

(** *** The cached constants are never refreshed *)

(** X9: once their statics exist, [computeBMatrices] and
    [computePMatrix] do not read A_c, A_d, Q, R or J again: overwriting
    the constant block of the controller between two calls changes neither
    what they store nor the statics they leave. *)
Theorem cached_constants_stale (fuel : nat) (k c : Controller)
  (sB : ComputeBMatrices.statics F) (sP : ComputePMatrix.statics F)
  (nr : option (RunNewtonRaphsonProcess.statics F)) :
  let rB := computeBMatrices gsl c (Some sB) in
  computeBMatrices gsl (with_constants_of k c) (Some sB)
    = (with_constants_of k rB.1, rB.2) /\
  computePMatrix gsl fuel (with_constants_of k c) (Some sP) nr
    = omap (fun r => (with_constants_of k r.1.1, r.1.2, r.2))
        (computePMatrix gsl fuel c (Some sP) nr).
Proof.
move=> rB; split=> //.
rewrite /computePMatrix /=.
by case: (runNewtonRaphsonProcess _ _ _ _ _).
Qed.

(** *** The convergence test *)

(** X10: the test of [newtonRaphsonConverged] does not depend on the
    order of its two arguments, and it succeeds on two equal matrices. *)
Theorem newtonRaphsonConverged_sym (S S' : 'M[F]_(6 + 6)) :
  newtonRaphsonConverged S S' = newtonRaphsonConverged S' S /\
  newtonRaphsonConverged S S.
Proof.
split.
  apply/newtonRaphsonConvergedP/newtonRaphsonConvergedP => ok i j;
    by rewrite distrC.
by apply/newtonRaphsonConvergedP => i j; rewrite subrr normr0; lra.
Qed.

(** *** What the loop leaves when it exits *)

(** X12: when [runNewtonRaphsonProcess] returns S, its statics hold
    H^2, the iterate S_prev before the last update and the result
    S_inverse of [invert] on it; S = 1/2 (S_prev + S_inverse H^2) is within
    the tolerance of S_prev, so that every entry of S_inverse H^2 - S_prev
    is at most 2e-3 in absolute value: S_prev is a fixed point of the
    update up to twice the tolerance. *)
Theorem runNewtonRaphsonProcess_residual (fuel : nat) (H S0 : 'M[F]_(6 + 6))
  (st : option (RunNewtonRaphsonProcess.statics F))
  (r : 'M[F]_(6 + 6) * RunNewtonRaphsonProcess.statics F) :
  runNewtonRaphsonProcess gsl fuel H S0 st = Some r ->
  let S_prev := RunNewtonRaphsonProcess.S_prev r.2 in
  let S_inverse := RunNewtonRaphsonProcess.S_inverse r.2 in
  [/\ r.1 = 2^-1 *: (S_prev + S_inverse *m (H *m H)),
      RunNewtonRaphsonProcess.H_squared r.2 = H *m H,
      exists inv0, S_inverse = invert gsl S_prev inv0,
      within_tolerance r.1 S_prev
    & forall i j, `|(S_inverse *m (H *m H) - S_prev) i j| <= 2 / 1000].
Proof.
rewrite runNewtonRaphsonProcessE.
case/newton_loop_exited => k k_lt [_ /newtonRaphsonConvergedP ok ->].
rewrite iterS /newton_pass /= /gsl_blas_dgemm_NN half_literal in ok *.
set m := iter k _ _ in ok *; set Sinv := invert gsl _ _ in ok *.
have SE : 2^-1 *: (Sinv *m (H *m H)) + 2^-1 *: m.1.1
          = 2^-1 *: (m.1.1 + Sinv *m (H *m H)).
  by rewrite -scalerDr addrC.
split=> //; first by exists m.2.
move=> i j; have := ok i j; rewrite SE !mxE.
set p := m.1.1 i j; set q := \sum_(_ < _) _ => bound.
have -> : q - p = 2 * (2^-1 * (p + q) - p) by field.
by rewrite normrM ger0_norm //; lra.
Qed.


(** *** The loop and the iteration of the specification *)

(** The two readings of the tolerance agree. *)
Lemma within_tolerancebP (S S' : 'M[F]_(6 + 6)) :
  reflect (within_tolerance S S') (within_toleranceb S S').
Proof.
apply: (iffP forallP) => [ok i j | ok i]; first exact: (forallP (ok i)).
by apply/forallP => j.
Qed.

Lemma newtonRaphsonConverged_tolerance (S S' : 'M[F]_(6 + 6)) :
  newtonRaphsonConverged S S' = within_toleranceb S S'.
Proof. exact/newtonRaphsonConvergedP/within_tolerancebP. Qed.

(** The loop, started on a state whose iterates are nonsingular, is the
    iteration of the specification. *)
Lemma newton_loop_iteration (fuel : nat)
  (H S S_prev S_inverse : 'M[F]_(6 + 6)) :
  (forall j, (j < fuel)%N -> iter j (newton_update H) S \in unitmx) ->
  omap fst (newton_loop gsl fuel (H *m H) S S_prev S_inverse)
  = newton_iteration fuel H S.
Proof.
elim: fuel S S_prev S_inverse => [ | fuel IHfuel] S S_prev S_inverse units //.
have S_unit : S \in unitmx by exact: (units 0).
have updateE : gsl_blas_dgemm_NN (sci F 5 1) (invert gsl S S_inverse)
                 (H *m H) (sci F 5 1) S = newton_update H S.
  rewrite /gsl_blas_dgemm_NN half_literal invert_unit // -scalerDr addrC.
  by [].
rewrite /= /gsl_matrix_memcpy updateE newtonRaphsonConverged_tolerance.
case: (within_toleranceb _ _) => //=.
by apply: IHfuel => j j_lt; rewrite -iterSr; apply: units.
Qed.

(** X13: as long as the iterates of the specification, S_0 = I and
    S_{k+1} = 1/2 (S_k + S_k^-1 H^2), are nonsingular,
    [runNewtonRaphsonProcess] returns exactly what the iteration of the
    specification returns, and leaves exactly when it does; the result
    depends neither on the previous contents of S nor on what earlier calls
    left in the statics. *)
Theorem runNewtonRaphsonProcess_refines (fuel : nat) (H S0 : 'M[F]_(6 + 6))
  (st : option (RunNewtonRaphsonProcess.statics F)) :
  (forall j, (j < fuel)%N -> newton_iterate H j \in unitmx) ->
  omap fst (runNewtonRaphsonProcess gsl fuel H S0 st)
  = newton_iteration fuel H 1%:M.
Proof.
move=> units; rewrite /runNewtonRaphsonProcess dgemm_NN_product.
exact: newton_loop_iteration.
Qed.


(** *** The loop on a matrix whose square is a multiple of the identity *)

Lemma sqrt_update_gt0 (a s : F) : 0 <= a -> 0 < s -> 0 < sqrt_update a s.
Proof.
move=> a_ge0 s_gt0; rewrite /sqrt_update mulr_gt0 ?invr_gt0 ?ltr0n //.
by rewrite ltr_pwDl // mulr_ge0 // invr_ge0 ltW.
Qed.

Lemma sqrt_iterate_gt0 (a : F) (k : nat) : 0 <= a -> 0 < sqrt_iterate a k.
Proof.
move=> a_ge0; elim: k => [ | k IHk]; first exact: ltr01.
by rewrite /sqrt_iterate iterS; apply: sqrt_update_gt0.
Qed.

Lemma sqrt_update_error (h s : F) :
  0 < s -> sqrt_update (h ^+ 2) s - h = (s - h) ^+ 2 / (2 * s).
Proof.
move=> s_gt0; have s_neq0 : s != 0 by rewrite gt_eqF.
by rewrite /sqrt_update; field.
Qed.

Lemma sqrt_update_ge (h s : F) : 0 < s -> h <= sqrt_update (h ^+ 2) s.
Proof.
move=> s_gt0; rewrite -subr_ge0 sqrt_update_error // divr_ge0 ?sqr_ge0 //.
by rewrite mulr_ge0 ?ler0n // ltW.
Qed.

Lemma sqrt_update_le (h s : F) :
  0 <= h -> h <= s -> 0 < s -> sqrt_update (h ^+ 2) s <= s.
Proof.
move=> h_ge0 h_le s_gt0; rewrite -subr_ge0.
have s_neq0 : s != 0 by rewrite gt_eqF.
have -> : s - sqrt_update (h ^+ 2) s = (s - h) * (s + h) / (2 * s).
  by rewrite /sqrt_update; field.
rewrite divr_ge0 ?mulr_ge0 ?subr_ge0 ?addr_ge0 ?ler0n //; exact: ltW.
Qed.

Lemma sqrt_update_halves (h s : F) :
  0 <= h -> h <= s -> 0 < s -> sqrt_update (h ^+ 2) s - h <= (s - h) / 2.
Proof.
move=> h_ge0 h_le s_gt0; rewrite sqrt_update_error //.
have s_neq0 : s != 0 by rewrite gt_eqF.
have -> : (s - h) ^+ 2 / (2 * s) = (s - h) / 2 * ((s - h) / s) by field.
rewrite ler_piMr ?divr_ge0 ?subr_ge0 ?ler0n //.
by rewrite ler_pdivrMr // mul1r gerBl.
Qed.

Lemma sqrt_update_error_le (h s : F) :
  0 <= h -> 0 < s ->
  sqrt_update (h ^+ 2) s - h <= `|sqrt_update (h ^+ 2) s - s|.
Proof.
move=> h_ge0 s_gt0; rewrite sqrt_update_error //.
have s_neq0 : s != 0 by rewrite gt_eqF.
have d_gt0 : 0 < 2 * s by rewrite mulr_gt0 // ltr0n.
have -> : sqrt_update (h ^+ 2) s - s = - ((s - h) * (s + h) / (2 * s)).
  by rewrite /sqrt_update; field.
rewrite normrN normrM normfV (gtr0_norm d_gt0) ler_pM2r ?invr_gt0 //.
rewrite normrM -[(s - h) ^+ 2]real_normK ?num_real // expr2 ler_wpM2l //.
have s_ge0 := ltW s_gt0.
rewrite [`|s + h|]ger0_norm ?addr_ge0 //.
by rewrite (le_trans (ler_normB _ _)) // gtr0_norm // ger0_norm.
Qed.

Lemma sqrt_iterate_error (h : F) (k : nat) :
  0 <= h -> sqrt_iterate (h ^+ 2) k.+1 - h <= (1 - h) ^+ 2 / 2 ^+ k.+1.
Proof.
move=> h_ge0; have a_ge0 : 0 <= h ^+ 2 by exact: sqr_ge0.
elim: k => [ | k IHk].
  by rewrite /sqrt_iterate /= sqrt_update_error // mulr1 expr1.
rewrite /sqrt_iterate iterS -/(sqrt_iterate _ k.+1).
apply: le_trans (sqrt_update_halves h_ge0 _ (sqrt_iterate_gt0 _ a_ge0)) _.
  by rewrite /sqrt_iterate iterS sqrt_update_ge // sqrt_iterate_gt0.
by rewrite [in leRHS]exprS invfM mulrCA [leRHS]mulrC ler_pM2r ?invr_gt0 ?ltr0n.
Qed.

Lemma newton_S_scalar (a : F) (H : 'M[F]_(6 + 6))
  (st : option (RunNewtonRaphsonProcess.statics F)) (k : nat) :
  0 <= a -> H *m H = a%:M ->
  newton_S gsl H st k = (sqrt_iterate a k)%:M.
Proof.
move=> a_ge0 HH; elim: k => [ | k IHk]; first exact: newton_S_seed.
have s_neq0 : sqrt_iterate a k != 0 by rewrite gt_eqF // sqrt_iterate_gt0.
rewrite newton_S_next IHk invert_unit ?scalar_unitmx // invmx_scalar HH.
by rewrite -scalar_mxM -raddfD /= scale_scalar_mx.
Qed.

Lemma scalar_within_tolerance (s t : F) :
  within_tolerance (s%:M : 'M_(6 + 6)) t%:M <-> `|s - t| <= 1 / 1000.
Proof.
split=> [/(_ 0 0) | close i j]; rewrite !mxE; first by rewrite eqxx !mulr1n.
by case: (i == j); rewrite ?mulr1n // !mulr0n subrr normr0; lra.
Qed.

(** If the test passes after some pass, the loop returns at the first pass
    after which it does. *)
Lemma runNewtonRaphsonProcess_returns_by (fuel k : nat)
  (H S0 : 'M[F]_(6 + 6)) (st : option (RunNewtonRaphsonProcess.statics F)) :
  newtonRaphsonConverged (newton_S gsl H st k.+1) (newton_S gsl H st k) ->
  (k < fuel)%N ->
  exists j nr',
    [/\ (j <= k)%N
      & runNewtonRaphsonProcess gsl fuel H S0 st
        = Some (newton_S gsl H st j.+1, nr')].
Proof.
move=> ok k_lt.
pose passes j :=
  newtonRaphsonConverged (newton_S gsl H st j.+1) (newton_S gsl H st j).
have ex_pass : exists j, passes j by exists k.
case: (ex_minnP ex_pass) => j ok_j j_min.
have j_le : (j <= k)%N by exact: j_min.
have failing i : (i < j)%N -> ~~ passes i.
  by move=> i_lt; apply/negP => /j_min; rewrite leqNgt i_lt.
have [nr' exits] := runNewtonRaphsonProcess_exits S0 failing ok_j
                      (leq_ltn_trans j_le k_lt).
by exists j, nr'.
Qed.

(** X14: when H^2 = h^2 I for some h >= 0, whatever
    [runNewtonRaphsonProcess] returns is s I with h <= s <= h + 1e-3: the
    result approximates the positive square root of H^2 from above, within
    the tolerance. *)
Theorem runNewtonRaphsonProcess_scalar_accuracy (fuel : nat) (h : F)
  (H S0 : 'M[F]_(6 + 6)) (st : option (RunNewtonRaphsonProcess.statics F))
  (r : 'M[F]_(6 + 6) * RunNewtonRaphsonProcess.statics F) :
  0 <= h -> H *m H = (h ^+ 2)%:M ->
  runNewtonRaphsonProcess gsl fuel H S0 st = Some r ->
  exists2 s, r.1 = s%:M & h <= s <= h + 1 / 1000.
Proof.
move=> h_ge0 HH; have a_ge0 : 0 <= h ^+ 2 by exact: sqr_ge0.
rewrite runNewtonRaphsonProcessE.
case/newton_loop_exited => k k_lt [_ /newtonRaphsonConvergedP ok ->].
move: ok; rewrite -/(newton_state gsl H st k.+1) -/(newton_S gsl H st k.+1).
rewrite newton_S_prev !(newton_S_scalar _ _ a_ge0 HH).
move/scalar_within_tolerance => close.
have s_gt0 := sqrt_iterate_gt0 k a_ge0.
exists (sqrt_iterate (h ^+ 2) k.+1) => //.
rewrite /sqrt_iterate iterS -/(sqrt_iterate _ k) sqrt_update_ge //=.
by rewrite -lerBlDl (le_trans (sqrt_update_error_le h_ge0 s_gt0)).
Qed.

(** X15: when H^2 = h^2 I for some h >= 0 with
    (1 - h)^2 <= 2^(n+1) / 1000, the Newton loop leaves after at most n + 2
    passes, with the corresponding iterate of the scalar Newton iteration
    for the square root of h^2. *)
Theorem runNewtonRaphsonProcess_scalar_returns (n fuel : nat) (h : F)
  (H S0 : 'M[F]_(6 + 6)) (st : option (RunNewtonRaphsonProcess.statics F)) :
  0 <= h -> H *m H = (h ^+ 2)%:M ->
  (1 - h) ^+ 2 <= 2 ^+ n.+1 / 1000 -> (n.+1 < fuel)%N ->
  exists j nr',
    [/\ (j <= n.+1)%N
      & runNewtonRaphsonProcess gsl fuel H S0 st
        = Some ((sqrt_iterate (h ^+ 2) j.+1)%:M, nr')].
Proof.
move=> h_ge0 HH small n_lt; have a_ge0 : 0 <= h ^+ 2 by exact: sqr_ge0.
have s_gt0 := sqrt_iterate_gt0 n.+1 a_ge0.
have h_le : h <= sqrt_iterate (h ^+ 2) n.+1.
  by rewrite /sqrt_iterate iterS sqrt_update_ge // sqrt_iterate_gt0.
have ok : newtonRaphsonConverged (newton_S gsl H st n.+2)
            (newton_S gsl H st n.+1).
  apply/newtonRaphsonConvergedP; rewrite !(newton_S_scalar _ _ a_ge0 HH).
  apply/scalar_within_tolerance; rewrite /sqrt_iterate iterS.
  have : 0 <= sqrt_iterate (h ^+ 2) n.+1
             - sqrt_update (h ^+ 2) (sqrt_iterate (h ^+ 2) n.+1).
    by rewrite subr_ge0 sqrt_update_le.
  rewrite -/(sqrt_iterate _ n.+1) distrC => /ger0_norm ->.
  apply: (@le_trans _ _ (sqrt_iterate (h ^+ 2) n.+1 - h)).
    by rewrite lerB // sqrt_update_ge.
  apply: le_trans (sqrt_iterate_error n h_ge0) _.
  by rewrite ler_pdivrMr ?exprn_gt0 ?ltr0n // mulrAC mul1r.
have [j [nr' [j_le exits]]] := runNewtonRaphsonProcess_returns_by S0 ok n_lt.
exists j, nr'; split=> //.
by rewrite exits (newton_S_scalar _ _ a_ge0 HH).
Qed.


(** *** Comparing literals *)

Lemma of_pos_succ (p : positive) : of_pos F (Pos.succ p) = of_pos F p + 1.
Proof. by elim: p => [p IHp | p _ | ] //=; rewrite ?IHp; ring. Qed.

Lemma of_pos_add_carry (p q : positive) :
  of_pos F (Pos.add p q) = of_pos F p + of_pos F q /\
  of_pos F (Pos.add_carry p q) = of_pos F p + of_pos F q + 1.
Proof.
elim: p q => [p IHp | p IHp | ] [q | q | ] /=;
  rewrite ?of_pos_succ ?(proj1 (IHp _)) ?(proj2 (IHp _)); split; ring.
Qed.

Lemma of_pos_add (p q : positive) :
  of_pos F (Pos.add p q) = of_pos F p + of_pos F q.
Proof. by have [] := of_pos_add_carry p q. Qed.

Lemma sci_lt_add (m d : positive) (e : nat) :
  sci F m e < sci F (Pos.add m d) e.
Proof.
rewrite /sci ltr_pM2r ?invr_gt0 ?exprn_gt0 ?ltr0n //.
by rewrite of_pos_add ltrDl of_pos_gt0.
Qed.

Lemma J1_lt_J2 : J1 F < J2 F.
Proof. exact: (sci_lt_add 3196587857 32502747 11). Qed.

Lemma J3_lt_J1 : J3 F < J1 F.
Proof. exact: (sci_lt_add 702534780 2494053077 11). Qed.

(** *** Diagonal matrices *)

Lemma diag_mx_pd (n : nat) (d : 'rV[F]_n) :
  (forall i, 0 < d 0 i) -> symmetric_pd (diag_mx d).
Proof.
move=> d_gt0; split=> [ | v v_neq0]; first exact: tr_diag_mx.
have formE : (v^T *m diag_mx d *m v) 0 0 = \sum_i d 0 i * v i 0 ^+ 2.
  rewrite mxE; apply: eq_bigr => i _.
  by rewrite mul_mx_diag !mxE expr2 mulrAC mulrC.
have ge0 (i : 'I_n) : true -> 0 <= d 0 i * v i 0 ^+ 2.
  by move=> _; rewrite mulr_ge0 ?sqr_ge0 // ltW.
rewrite formE lt_def (sumr_ge0 _ ge0) andbT.
apply: contraNneq v_neq0 => /eqP; rewrite (psumr_eq0 _ ge0).
move/allP => all0; apply/eqP/colP => i; rewrite [RHS]mxE.
have := all0 i (mem_index_enum _).
by rewrite /= mulf_eq0 gt_eqF //= sqrf_eq0 => /eqP.
Qed.

(** *** The controller after [initializeController] *)

Lemma initializeController_Q (c : Controller) :
  Q (initializeController gsl c)
  = diag_mx (\row_(i < 6) if (i < 3)%N then POS_COST F else VEL_COST F).
Proof.
apply/matrixP => i j; rewrite !mxE.
case: i => [[|[|[|[|[|[|i]]]]]] Hi] //;
  by case: j => [[|[|[|[|[|[|j]]]]]] Hj].
Qed.

Lemma initializeController_J (c : Controller) :
  J (initializeController gsl c)
  = diag_mx (\row_(i < 3) nth 0 [:: J1 F; J2 F; J3 F] i).
Proof.
apply/matrixP => i j; rewrite !mxE.
by case: i => [[|[|[|i]]] Hi] //; case: j => [[|[|[|j]]] Hj].
Qed.

Lemma initializeController_J_unit (c : Controller) :
  J (initializeController gsl c) \in unitmx.
Proof.
rewrite initializeController_J unitmxE det_diag unitfE.
apply/prodf_neq0 => i _; rewrite mxE.
by case: i => [[|[|[|i]]] Hi] //=; rewrite gt_eqF // sci_gt0.
Qed.

(** The matrix of the linearised attitude dynamics is invertible, its
    inverse being written out. *)
Lemma attitude_dynamics_unit (n a b c d : F) :
  n != 0 -> c != 0 -> d != 0 -> a + b * n != 0 ->
  memcpy_matrix 6 6
    [:: 0;   0; n; 1; 0; 0;
        0;   0; 0; 0; 1; 0;
        - n; 0; 0; 0; 0; 1;
        a;   0; 0; 0; 0; b;
        0;   c; 0; 0; 0; 0;
        0;   0; 0; d; 0; 0] \in unitmx.
Proof.
move=> n_neq0 c_neq0 d_neq0 D_neq0; set A := memcpy_matrix 6 6 _.
pose D := a + b * n.
pose X : 'M[F]_6 := memcpy_matrix 6 6
  [:: 0;      0; - b / D; 1 / D; 0;     0;
      0;      0; 0;       0;     1 / c; 0;
      1 / n;  0; 0;       0;     0;     - 1 / (d * n);
      0;      0; 0;       0;     0;     1 / d;
      0;      1; 0;       0;     0;     0;
      0;      0; a / D;   n / D; 0;     0].
suff AX : A *m X = 1%:M by have [] := mulmx1_unit AX.
apply/matrixP => i j; rewrite !mxE !big_ord_recl big_ord0 !mxE /=.
case: i => [[|[|[|[|[|[|i]]]]]] Hi] //;
  case: j => [[|[|[|[|[|[|j]]]]]] Hj] //=;
  rewrite ?mulr1n ?mulr0n /D; field; rewrite ?n_neq0 ?c_neq0 ?d_neq0 ?D_neq0 //.
Qed.

Lemma initializeController_A_c_unit (c : Controller) :
  A_c (initializeController gsl c) \in unitmx.
Proof.
have n_neq0 : MEAN_MOTION F != 0 by rewrite gt_eqF // sci_gt0.
have J1_neq0 : J1 F != 0 by rewrite gt_eqF // sci_gt0.
have J2_neq0 : J2 F != 0 by rewrite gt_eqF // sci_gt0.
have J3_neq0 : J3 F != 0 by rewrite gt_eqF // sci_gt0.
have J12_neq0 : double_div gsl (J1 F - J2 F) (J3 F) != 0.
  rewrite double_divE // mulf_neq0 ?invr_eq0 // subr_eq0 lt_eqF //.
  exact: J1_lt_J2.
have J23_neq0 : double_div gsl (J2 F - J3 F) (J1 F) != 0.
  rewrite double_divE // mulf_neq0 ?invr_eq0 // subr_eq0 gt_eqF //.
  exact: lt_trans J3_lt_J1 J1_lt_J2.
have J31_neq0 : double_div gsl (J3 F - J1 F) (J2 F) != 0.
  rewrite double_divE // mulf_neq0 ?invr_eq0 // subr_eq0 lt_eqF //.
  exact: J3_lt_J1.
apply: attitude_dynamics_unit => //.
- by rewrite 3!mulf_eq0 pnatr_eq0 (negPf n_neq0) (negPf J31_neq0).
- by rewrite mulf_eq0 oppr_eq0 (negPf n_neq0) (negPf J12_neq0).
set n := MEAN_MOTION F; set J23 := double_div gsl _ _ in J23_neq0 *.
have -> : - 3 * n * n * J23 + - n * J23 * n = - 4 * (n * n * J23) by ring.
by rewrite 3!mulf_eq0 oppr_eq0 pnatr_eq0 (negPf n_neq0) (negPf J23_neq0).
Qed.

Lemma scalar_mx_pd (n : nat) (a : F) :
  0 < a -> symmetric_pd (a%:M : 'M[F]_n).
Proof.
move=> a_gt0; rewrite -diag_const_mx; apply: diag_mx_pd => i.
by rewrite mxE.
Qed.

(** X16: [initializeController] overwrites every field, so that its
    result does not depend on what the controller held; it leaves Q and R
    symmetric positive definite, I_6 the identity, Zero_6 and Zero_3 zero,
    and A_d the result of the exponential routine on DT * A_c. *)
Theorem initializeController_costs (c c' : Controller) :
  let c1 := initializeController gsl c in
  [/\ c1 = initializeController gsl c',
      symmetric_pd (Q c1), symmetric_pd (R c1), helpers_set c1
    & A_d c1 = gsl_linalg_exponential_ss gsl (DT F *: A_c c1)].
Proof.
move=> c1; split=> //.
- rewrite /c1 initializeController_Q; apply: diag_mx_pd => i.
  by rewrite mxE; case: ifP => _; exact: sci_gt0.
- rewrite /c1 initializeController_R; apply: scalar_mx_pd.
  by rewrite exprn_gt0 // ltr0n.
Qed.

(** X17: after [initializeController] the matrices J, A_c and R are
    invertible, so that the inverses the first calls of [computeBMatrices]
    and [computePMatrix] cache are the true inverses: J_inv = J^-1,
    A_c_inv = A_c^-1, transform = -A_c^-1 (I - A_d), R_inverse = R^-1, and
    N = [[A_d, 0], [-Q, I]]. *)
Theorem initializeController_invertible (c : Controller) :
  let c1 := initializeController gsl c in
  let sB := computeBMatrices_first_call gsl c1 in
  let sP := computePMatrix_first_call gsl c1 in
  [/\ [/\ J c1 \in unitmx, A_c c1 \in unitmx & R c1 \in unitmx],
      [/\ ComputeBMatrices.J_inv sB = invmx (J c1),
          ComputeBMatrices.A_c_inv sB = invmx (A_c c1)
        & ComputeBMatrices.transform sB = transform_spec c1]
    & [/\ ComputePMatrix.R_inverse sP = invmx (R c1),
          ComputePMatrix.N sP = N_spec c1
        & ComputePMatrix.A_d_transpose sP = (A_d c1)^T]].
Proof.
move=> c1 sB sP.
have J_unit : J c1 \in unitmx by exact: initializeController_J_unit.
have A_c_unit : A_c c1 \in unitmx by exact: initializeController_A_c_unit.
have R_unit : R c1 \in unitmx by exact: initializeController_R_unit.
split=> //; split; rewrite /sB /sP /= ?invert_unit //.
- by rewrite dgemm_NN_scaled scaleN1r /transform_spec mulNmx.
- by rewrite /concatenate2x2 /gsl_matrix_scale /gsl_matrix_memcpy scaleN1r.
Qed.

(** X18: on a controller just initialised and updated with readings
    whose magnetic field is not (0, 0, 0), the first call of
    [computeBMatrices] stores B_c = [0; J^-1 ([b]x [b]x) / (b . b)] and
    B_d = -A_c^-1 (I - A_d) B_c, with no further assumption. *)
Theorem initialized_computeBMatrices (env : Sensors F) (c0 : Controller) :
  getMagneticField env != (0, 0, 0) ->
  let c := updateSensors env (initializeController gsl c0) in
  let r := computeBMatrices gsl c None in
  [/\ b c != 0, B_c r.1 = B_c_spec c, B_d r.1 = transform_spec c *m B_c r.1
    & ComputeBMatrices.transform r.2 = transform_spec c].
Proof.
move=> field_neq0 c r.
have constE : [/\ J c = J (initializeController gsl c0),
                  A_c c = A_c (initializeController gsl c0),
                  A_d c = A_d (initializeController gsl c0) & Zero_3 c = 0].
  rewrite /c /updateSensors.
  case: (getAngularPosition env) => [[x0 x1] x2].
  case: (getAngularVelocity env) => [[x3 x4] x5].
  by case: (getMagneticField env) => [[b0 b1] b2].
have [JE A_cE A_dE Zero_3E] := constE.
have J_unit : J c \in unitmx by rewrite JE initializeController_J_unit.
have A_c_unit : A_c c \in unitmx by rewrite A_cE initializeController_A_c_unit.
have b_neq0 : b c != 0.
  apply: contraNneq field_neq0 => /colP b0; rewrite /c /updateSensors in b0.
  case: (getAngularPosition env) b0 => [[x0 x1] x2].
  case: (getAngularVelocity env) => [[x3 x4] x5].
  case: (getMagneticField env) => [[b0 b1] b2] /= b_0.
  have := b_0 (@Ordinal 3 0 isT); have := b_0 (@Ordinal 3 1 isT).
  have := b_0 (@Ordinal 3 2 isT); rewrite !mxE /=.
  by move=> -> -> ->.
have bb_neq0 : dot (b c) (b c) != 0 by rewrite dot_self_eq0.
have [B_cE B_dE _ [_ _ _ trE]] := computeBMatrices_stores gsl c None.
rewrite -/r in B_cE B_dE trE; clearbody r; clearbody c.
have trS : ComputeBMatrices.transform (computeBMatrices_statics gsl c None)
           = transform_spec c.
  by rewrite /= invert_unit // dgemm_NN_scaled scaleN1r /transform_spec mulNmx.
split=> //.
- rewrite B_cE Zero_3E /= invert_unit // double_divE // div1r.
  by rewrite /B_c_spec -scalemxAr.
- by rewrite B_dE trS.
- by rewrite trE.
Qed.


(** *** Definiteness and the gain *)

(** A positive definite matrix is invertible. *)
Lemma symmetric_pd_unit (n : nat) (M : 'M[F]_n) :
  symmetric_pd M -> M \in unitmx.
Proof.
case=> M_sym M_pd; rewrite -row_free_unit -kermx_eq0.
apply/eqP/row_matrixP => i; rewrite row0; apply/eqP.
set w := row i (kermx M).
have wM : w *m M = 0 by rewrite -row_mul mulmx_ker row0.
apply: contraT => w_neq0.
have wT_neq0 : w^T != 0 by rewrite -trmx0 (inj_eq trmx_inj).
by have := M_pd _ wT_neq0; rewrite trmxK wM mul0mx mxE ltxx.
Qed.

(** R + B^T P B is positive definite when R is and P is positive
    semi-definite. *)
Lemma gain_matrix_pd (m n : nat) (R0 : 'M[F]_n) (P0 : 'M[F]_m)
  (B : 'M[F]_(m, n)) :
  symmetric_pd R0 -> symmetric_psd P0 -> symmetric_pd (R0 + B^T *m P0 *m B).
Proof.
case=> R_sym R_pd [P_sym P_psd]; split=> [ | v v_neq0].
  by rewrite linearD /= !trmx_mul trmxK R_sym P_sym mulmxA.
rewrite mulmxDr mulmxDl mxE ltr_wpDr ?R_pd //.
by have := P_psd (B *m v); rewrite trmx_mul !mulmxA.
Qed.

(** X19: when R is symmetric positive definite and P symmetric
    positive semi-definite, R + B_d^T P B_d is invertible, so that
    [computeGainMatrix] stores K = (R + B_d^T P B_d)^-1 B_d^T P A_d, and
    [sendMTInputs] called next stores u = -K x for this K. *)
Theorem computeGainMatrix_definite (c : Controller)
  (st : option (ComputeGainMatrix.statics F)) :
  symmetric_pd (R c) -> symmetric_psd (P c) ->
  let c' := (computeGainMatrix gsl c st).1 in
  [/\ R c + (B_d c)^T *m P c *m B_d c \in unitmx, K c' = K_spec c
    & u (sendMTInputs c').1 = - (K_spec c *m x c)].
Proof.
move=> R_pd P_psd c'.
have RBPB_unit : R c + (B_d c)^T *m P c *m B_d c \in unitmx.
  exact/symmetric_pd_unit/gain_matrix_pd.
have [KE _ _] := computeGainMatrix_stores gsl c st.
have xE : x c' = x c by [].
rewrite -/c' in KE; clearbody c'.
have {}KE : K c' = K_spec c by rewrite KE /K_spec !mulmxA invert_unit.
split=> //.
by rewrite /= /gsl_blas_dgemv_N scale0r addr0 scaleN1r KE xE.
Qed.

(** *** What [computePMatrix] stores, and the sign of B_d *)

(** What [computePMatrix] stores in P, whatever [invert] returns. *)
Lemma computePMatrix_stores (fuel : nat) (c : Controller)
  (st : option (ComputePMatrix.statics F))
  (nr : option (RunNewtonRaphsonProcess.statics F)) :
  let s := computePMatrix_statics gsl c st in
  let L := block_mx (I_6 c)
             (B_d c *m (ComputePMatrix.R_inverse s *m (B_d c)^T))
             (Zero_6 c) (ComputePMatrix.A_d_transpose s) in
  let H := invert gsl (ComputePMatrix.N s + L)
             (ComputePMatrix.N_plus_L_inverse s)
           *m (ComputePMatrix.N s - L) in
  omap (fun r => P r.1.1) (computePMatrix gsl fuel c st nr)
  = omap (fun r => dlsubmx (H - r.1)
                   *m invert gsl (ulsubmx (H - r.1))
                        (ComputePMatrix.X1_inverse s))
      (runNewtonRaphsonProcess gsl fuel H (ComputePMatrix.S s) nr).
Proof.
move=> s L H; rewrite /computePMatrix -/(computePMatrix_statics gsl c st) -/s.
rewrite dgemm_NT_product !dgemm_NN_product /gsl_matrix_add /gsl_matrix_sub.
rewrite /gsl_matrix_memcpy /concatenate2x2 -/L -/H.
by case: (runNewtonRaphsonProcess _ _ _ _ _) => //= r; rewrite dgemm_NN_product.
Qed.

(** X20: replacing B_d by -B_d leaves the P that [computePMatrix]
    stores unchanged, turns the K that [computeGainMatrix] stores into -K,
    and leaves the closed-loop matrix A_d - B_d K unchanged. *)
Theorem B_d_sign (fuel : nat) (c : Controller)
  (stP : option (ComputePMatrix.statics F))
  (nr : option (RunNewtonRaphsonProcess.statics F))
  (stK : option (ComputeGainMatrix.statics F)) :
  let c' := set_B_d c (- B_d c) in
  [/\ omap (fun r => P r.1.1) (computePMatrix gsl fuel c' stP nr)
        = omap (fun r => P r.1.1) (computePMatrix gsl fuel c stP nr),
      K (computeGainMatrix gsl c' stK).1 = - K (computeGainMatrix gsl c stK).1
    & closed_loop (computeGainMatrix gsl c' stK).1
        = closed_loop (computeGainMatrix gsl c stK).1].
Proof.
move=> c'; rewrite /c' {c'}; set c' := set_B_d c (- B_d c).
have [KE A_dE B_dE] := computeGainMatrix_stores gsl c stK.
have [KE' A_dE' B_dE'] := computeGainMatrix_stores gsl c' stK.
have K_opp : K (computeGainMatrix gsl c' stK).1
             = - K (computeGainMatrix gsl c stK).1.
  rewrite KE' KE [B_d c']/= [R c']/= [P c']/= [A_d c']/=.
  by rewrite linearN /= !(mulmxN, mulNmx) opprK.
split; [ | exact: K_opp | ].
  have stE : computePMatrix_statics gsl c' stP
             = computePMatrix_statics gsl c stP by case: stP.
  have PE := computePMatrix_stores fuel c stP nr.
  have PE' := computePMatrix_stores fuel c' stP nr.
  cbv zeta in PE, PE'; rewrite [LHS]PE' [RHS]PE {PE PE'}.
  rewrite stE [B_d c']/= [I_6 c']/= [Zero_6 c']/=.
  have -> (M : 'M[F]_3) :
      - B_d c *m (M *m (- B_d c)^T) = B_d c *m (M *m (B_d c)^T).
    by rewrite linearN /= mulmxN mulNmx mulmxN opprK.
  by [].
rewrite /closed_loop A_dE' B_dE' A_dE B_dE K_opp [B_d c']/=.
by rewrite mulNmx mulmxN opprK.
Qed.


(** *** [computePMatrix] and the algorithm of the specification *)

(** X21: on a controller whose helper matrices are set and whose
    statics, if any, were cached from the same constant block, with R and
    N + L invertible, the iterates of the specification nonsingular and X1
    invertible, [computePMatrix] stores P = X2 X1^-1 for the S that the
    iteration of the specification returns on H = (N + L)^-1 (N - L), and
    returns exactly when that iteration does: P depends neither on the
    scratch contents of the statics nor on those of the Newton loop. *)
Theorem computePMatrix_refines (fuel : nat) (c0 c : Controller)
  (st : option (ComputePMatrix.statics F))
  (nr : option (RunNewtonRaphsonProcess.statics F)) :
  same_constants c0 c -> P_statics_of gsl c0 st -> helpers_set c ->
  R c \in unitmx -> N_spec c + L_spec c \in unitmx ->
  (forall j, (j < fuel)%N -> newton_iterate (H_spec c) j \in unitmx) ->
  (forall S, newton_iteration fuel (H_spec c) 1%:M = Some S ->
     ulsubmx (H_spec c - S) \in unitmx) ->
  omap (fun r => P r.1.1) (computePMatrix gsl fuel c st nr)
  = omap (P_spec (H_spec c)) (newton_iteration fuel (H_spec c) 1%:M).
Proof.
move=> c0c st_ok helpers R_unit NL_unit units X1_unit.
have [NE RinvE AdTE] := P_statics_spec c0c st_ok helpers R_unit.
have [I_6E Zero_6E _] := helpers.
have PE := computePMatrix_stores fuel c st nr.
cbv zeta in PE; rewrite [LHS]PE {PE} NE RinvE AdTE I_6E Zero_6E.
rewrite [B_d c *m (_ *m _)]mulmxA -/(L_spec c) invert_unit // -/(H_spec c).
set S0 := ComputePMatrix.S _.
have : omap fst (runNewtonRaphsonProcess gsl fuel (H_spec c) S0 nr)
       = newton_iteration fuel (H_spec c) 1%:M.
  rewrite /runNewtonRaphsonProcess dgemm_NN_product.
  exact: newton_loop_iteration.
case: (runNewtonRaphsonProcess _ _ _ _ _) => [[S nr'] | ] /= runE;
  rewrite -runE //=.
by rewrite invert_unit //; apply: X1_unit.
Qed.

End FurtherProperties.

(** *** A loop that leaves after one pass *)

Section OnePass.
Variable F : realFieldType.
Variable gsl : gsl_kernel F.

(** X23: when every entry of H^2 - I is at most 2e-3 in absolute value,
    the Newton loop leaves after its first pass and
    [runNewtonRaphsonProcess] returns 1/2 (I + H^2). *)
Theorem runNewtonRaphsonProcess_one_pass (fuel : nat) (H S0 : 'M[F]_(6 + 6))
  (st : option (RunNewtonRaphsonProcess.statics F)) :
  (0 < fuel)%N ->
  (forall i j, `|(H *m H - 1%:M) i j| <= 2 / 1000) ->
  exists nr',
    runNewtonRaphsonProcess gsl fuel H S0 st
    = Some (2^-1 *: (1%:M + H *m H), nr').
Proof.
move=> fuel_gt0 close.
have S1 : newton_S gsl H st 1 = 2^-1 *: (1%:M + H *m H).
  by rewrite newton_S_next newton_S_seed invert_unit ?unitmx1 // invmx1 mul1mx.
have step : 2^-1 *: (1%:M + H *m H) - 1%:M = 2^-1 *: (H *m H - 1%:M).
  apply/matrixP => i j; rewrite !mxE; set p := \sum_(k < _) _.
  by field.
have ok : newtonRaphsonConverged (newton_S gsl H st 1) (newton_S gsl H st 0).
  apply/newtonRaphsonConvergedP/within_toleranceE => i j.
  rewrite S1 newton_S_seed step mxE normrM ger0_norm ?invr_ge0 ?ler0n //.
  by have := close i j; set t := `|_|; lra.
have failing j : (j < 0)%N ->
    ~~ newtonRaphsonConverged (newton_S gsl H st j.+1) (newton_S gsl H st j).
  by [].
have [nr' exits] := runNewtonRaphsonProcess_exits S0 failing ok fuel_gt0.
by exists nr'; rewrite exits S1.
Qed.

End OnePass.

(** ** Closed examples, over the rationals and the exact kernel *)

(** The hypotheses of C6 hold on the example controller. *)
Lemma computeGainMatrix_spec_witness :
  let c := unit_controller rat in
  R c + (B_d c)^T *m P c *m B_d c \in unitmx /\
  K (computeGainMatrix (exact_kernel rat) c None).1 = K_spec c.
Proof.
move=> c; split; first exact: unit_controller_gain_unit.
exact: (computeGainMatrix_spec (exact_kernel rat) None
          (unit_controller_gain_unit rat)).
Defined.

(** The hypotheses of C7 hold on the example controller, whose field
    vector is (1, 1, 1), on a first call. *)
Lemma computeBMatrices_spec_witness :
  let c := unit_controller rat in
  let r := computeBMatrices (exact_kernel rat) c None in
  dot (b c) (b c) != 0 /\
  [/\ B_c r.1 = B_c_spec c,
      B_d r.1 = transform_spec c *m B_c r.1
    & ComputeBMatrices.transform r.2 = transform_spec c].
Proof.
move=> c r; split; first exact: unit_controller_field.
have [] := @computeBMatrices_spec rat (exact_kernel rat)
  (unit_controller rat) (unit_controller rat) None
  (unit_controller_constants rat) I (unit_controller_helpers rat)
  (unitmx1 _ _) (unitmx1 _ _) (unit_controller_field rat).
by [].
Defined.

(** The hypotheses of C2 hold on the example controller: the Newton loop
    leaves after one pass with S = I. *)
Lemma computePMatrix_spec_witness :
  let c := unit_controller rat in
  exists c' s' nr',
    computePMatrix (exact_kernel rat) 1 c None None = Some (c', s', nr') /\
    P c' = P_spec (H_spec c) 1%:M.
Proof.
have [nr' newton] := unit_controller_newton (exact_kernel rat) 0 None.
have NL_unit :
    N_spec (unit_controller rat) + L_spec (unit_controller rat) \in unitmx.
  by rewrite unit_controller_NL unitmx1.
have [c' [s' [computed _ PE _ _]]] :=
  @computePMatrix_spec rat (exact_kernel rat) 1
    (unit_controller rat) (unit_controller rat) None None 0 1%:M nr'
    (unit_controller_constants rat) I (unit_controller_helpers rat)
    (unitmx1 _ _) NL_unit newton (unit_controller_X1 rat).
by exists c', s', nr'.
Defined.

(** C1 as stated fails: with a magnetometer that reads (0, 0, 0) the field
    vector is zero and so is the divisor b . b, and the call returns
    instead of reporting a DegenerateInputError. *)
Lemma computeBMatrices_zero_field_returns :
  let gsl := exact_kernel rat in
  let c := updateSensors (zero_field_sensors rat)
             (initializeController gsl (zero_controller rat)) in
  [/\ b c = 0, gsl_blas_ddot (b c) (b c) = 0
    & call_void (fun cntl => computeBMatrices gsl cntl None) c
      <> Raised DegenerateInputError].
Proof.
have bE : b (updateSensors (zero_field_sensors rat)
             (initializeController (exact_kernel rat) (zero_controller rat)))
          = 0.
  by apply/colP => i; rewrite !mxE /=; case: i => [[ | [ | [ | i]]] Hi].
split=> //; rewrite bE.
by rewrite /gsl_blas_ddot big1 // => i _; rewrite mxE mul0r.
Qed.

(** The inversion routines of the exact kernel satisfy the statuses C5
    is stated with: on the 3x3 identity [invert] returns, with the
    inverse. *)
Lemma invert_no_error_result_witness :
  let gsl := exact_kernel rat in
  invert_call gsl (1%:M : 'M[rat]_3) 0 = Returned (invmx 1%:M).
Proof.
move=> gsl.
have [returned _ _ _] :=
  invert_no_error_result (exact_status_kernel rat) (1%:M : 'M[rat]_3) 0.
exact: (returned (unitmx1 _ _)).
Defined.

(** C5 as stated fails.  The zero 3x3 matrix is singular: the inversion
    routine raises [GSL_EDOM] and the process is aborted inside [invert],
    so that no SingularMatrixError reaches the caller.  The matrix
    diag (1, 1e-300, 1e-300) is nonsingular with a condition number of
    1e300: no threshold stops it, the call returns with its inverse. *)
Lemma invert_singular_aborts :
  let gsl := exact_kernel rat in
  let mat : 'M[rat]_3 := 0 in
  let ill := ill_conditioned (10 ^- 300 : rat) in
  [/\ mat \notin unitmx,
      invert_call gsl mat 0 = Aborted GSL_EDOM,
      invert_call gsl mat 0 <> Raised SingularMatrixError,
      invert_call gsl ill 0 = Returned (invmx ill)
    & invert_call gsl ill 0 <> Raised SingularMatrixError].
Proof.
move=> gsl mat ill.
have singular : mat \notin unitmx by rewrite unitmxE det0 unitfE eqxx.
have ill_unit : ill \in unitmx.
  by apply: ill_conditioned_unit; rewrite invr_eq0 expf_neq0.
have aborted := invert_call_singular (exact_status_kernel rat) 0 singular.
have returned := invert_call_unit (exact_status_kernel rat) 0 ill_unit.
by split=> //; rewrite ?aborted ?returned.
Qed.

(** The hypotheses of X22 hold on the example with marginal modes: the
    loop leaves after ten passes and the solver stores P = 0. *)
Lemma computePMatrix_zero_state_cost_witness :
  let gsl := exact_kernel rat in
  let c := marginal_controller rat in
  exists c' s' nr',
    [/\ computePMatrix gsl 10 c None None = Some (c', s', nr'),
        P c' = 0
      & closed_loop (computeGainMatrix gsl c' None).1 = A_d c].
Proof.
move=> gsl c; have [nr' newton] := marginal_newton gsl 0 None.
have [NL_unit _] := marginal_NL_inverse rat.
have [c' [s' [computed [P0 _] _ closed]]] :=
  @computePMatrix_zero_state_cost rat gsl 10 c c None None 0 _ nr'
    (conj (And4 (erefl _) (erefl _) (erefl _) (erefl _))
          (And4 (erefl _) (erefl _) (erefl _) (erefl _)))
    I (And3 (erefl _) (erefl _) (erefl _)) (erefl _) (unitmx1 _ _) NL_unit
    (fun k _ => marginal_S_unit gsl None k) newton.
by exists c', s', nr'; split=> //; have [] := closed None.
Defined.

(** C8 as stated fails.  The pair A_d = diag (1, 1, 1, 0, 0, 0),
    B_d = [I; 0] is stabilizable (the feedback [I 0] moves every
    eigenvalue to 0), Q = 0 is positive semi-definite and R = I is
    positive definite; the solver returns, and the closed loop built from
    the resulting gain keeps the eigenvalue 1 of A_d, which is not strictly
    inside the unit circle. *)
Lemma riccati_solver_not_stabilizing :
  let gsl := exact_kernel rat in
  let c := marginal_controller rat in
  [/\ stabilizable (A_d c) (B_d c), symmetric_psd (Q c), symmetric_pd (R c)
    & exists c' s' nr',
        computePMatrix gsl 10 c None None = Some (c', s', nr') /\
        ~ schur_stable (closed_loop (computeGainMatrix gsl c' None).1)].
Proof.
move=> gsl c; split.
- exact: marginal_stabilizable.
- exact: symmetric_psd0.
- exact: symmetric_pd1.
have [nr' newton] := marginal_newton gsl 0 None.
have [NL_unit _] := marginal_NL_inverse rat.
have [s' computed] :=
  @zero_state_cost_P rat gsl 10 c c None None 0 _ nr'
    (conj (And4 (erefl _) (erefl _) (erefl _) (erefl _))
          (And4 (erefl _) (erefl _) (erefl _) (erefl _)))
    I (And3 (erefl _) (erefl _) (erefl _)) (erefl _) (unitmx1 _ _) NL_unit
    (fun k _ => marginal_S_unit gsl None k) newton.
exists (set_P c 0), s', nr'; split=> //.
have [_ ->] := @zero_P_gain rat gsl (set_P c 0) None (erefl _).
exact: marginal_unstable.
Qed.

(** ** Further closed examples *)

Lemma unit_controller_field_neq0 : b (unit_controller rat) != 0.
Proof. by rewrite -dot_self_eq0 unit_controller_field. Qed.

(** The hypotheses of [computeBMatrices_field_aligned] hold on the example
    controller, whose field vector is (1, 1, 1). *)
Lemma computeBMatrices_field_aligned_witness :
  let c := unit_controller rat in
  let r := computeBMatrices (exact_kernel rat) c None in
  B_c r.1 *m b c = 0 /\ B_d r.1 *m b c = 0.
Proof.
exact: (@computeBMatrices_field_aligned rat (exact_kernel rat)
          (unit_controller rat) None (erefl _) unit_controller_field_neq0).
Defined.

(** The inertia matrix of the example controller is the identity, its
    field vector (1, 1, 1). *)
Lemma computeBMatrices_torque_orthogonal_witness :
  let c := unit_controller rat in
  let r := computeBMatrices (exact_kernel rat) c None in
  (b c)^T *m (J c *m dsubmx (B_c r.1)) = 0.
Proof.
exact: (@computeBMatrices_torque_orthogonal rat (exact_kernel rat)
          (unit_controller rat) (unitmx1 _ _) unit_controller_field_neq0).
Defined.

(** The field (1, 1, 1) of the example controller, doubled. *)
Lemma computeBMatrices_field_scale_witness :
  let c := unit_controller rat in
  let r := computeBMatrices (exact_kernel rat) c None in
  let r' := computeBMatrices (exact_kernel rat) (set_b c (2 *: b c)) None in
  B_c r'.1 = B_c r.1 /\ B_d r'.1 = B_d r.1.
Proof.
have two_neq0 : (2 : rat) != 0 by [].
have [_ B_cE B_dE] :=
  @computeBMatrices_field_scale rat (exact_kernel rat) (unit_controller rat)
    None 2 two_neq0 unit_controller_field_neq0.
by split.
Defined.

Lemma computeBMatrices_quotient_projector_witness :
  let c := unit_controller rat in
  let q := ComputeBMatrices.quotient
             (computeBMatrices (exact_kernel rat) c None).2 in
  q *m q = - q /\ q *m b c = 0.
Proof.
have [_ _ qq qb] :=
  @computeBMatrices_quotient_projector rat (exact_kernel rat)
    (unit_controller rat) None unit_controller_field_neq0.
by split.
Defined.

Lemma runNewtonRaphsonProcess_residual_witness :
  let gsl := exact_kernel rat in
  exists r,
    runNewtonRaphsonProcess gsl 1 (H_spec (unit_controller rat)) 0 None
      = Some r /\
    within_tolerance r.1 (RunNewtonRaphsonProcess.S_prev r.2).
Proof.
move=> gsl; have [nr' newton] := unit_controller_newton gsl 0 None.
have [_ _ _ close _] := runNewtonRaphsonProcess_residual newton.
by exists (1%:M, nr').
Defined.

Lemma runNewtonRaphsonProcess_refines_witness :
  omap fst (runNewtonRaphsonProcess (exact_kernel rat) 1 1%:M 0 None)
  = newton_iteration 1 1%:M 1%:M.
Proof.
apply: runNewtonRaphsonProcess_refines => j.
by case: j => // _; exact: unitmx1.
Defined.

Lemma unit_controller_H_scalar :
  H_spec (unit_controller rat) *m H_spec (unit_controller rat)
  = ((1 : rat) ^+ 2)%:M.
Proof. by rewrite unit_controller_H_squared expr1n. Qed.

Lemma runNewtonRaphsonProcess_scalar_accuracy_witness :
  let gsl := exact_kernel rat in
  exists r,
    runNewtonRaphsonProcess gsl 1 (H_spec (unit_controller rat)) 0 None
      = Some r /\
    exists2 s : rat, r.1 = s%:M & 1 <= s <= 1 + 1 / 1000.
Proof.
move=> gsl; have [nr' newton] := unit_controller_newton gsl 0 None.
exists (1%:M, nr'); split=> //.
exact: (runNewtonRaphsonProcess_scalar_accuracy (@ler01 rat)
          unit_controller_H_scalar newton).
Defined.

Lemma unit_root_bound (F : realFieldType) :
  (1 - 1 : F) ^+ 2 <= 2 ^+ 1 / 1000.
Proof. by rewrite subrr expr0n divr_ge0 ?exprn_ge0 ?ler0n. Qed.

Lemma runNewtonRaphsonProcess_scalar_returns_witness :
  let gsl := exact_kernel rat in
  exists j nr',
    [/\ (j <= 1)%N
      & runNewtonRaphsonProcess gsl 2 (H_spec (unit_controller rat)) 0 None
        = Some ((sqrt_iterate ((1 : rat) ^+ 2) j.+1)%:M, nr')].
Proof.
move=> gsl.
exact: (runNewtonRaphsonProcess_scalar_returns gsl 0 None (@ler01 rat)
          unit_controller_H_scalar (unit_root_bound rat) (ltnSn 1)).
Defined.

(** A magnetometer that reads (1, 0, 0), on a controller just
    initialised. *)
Lemma initialized_computeBMatrices_witness :
  let gsl := exact_kernel rat in
  let c := updateSensors (unit_field_sensors rat)
             (initializeController gsl (zero_controller rat)) in
  let r := computeBMatrices gsl c None in
  B_c r.1 = B_c_spec c /\ B_d r.1 = transform_spec c *m B_c r.1.
Proof.
have field_neq0 : getMagneticField (unit_field_sensors rat) != (0, 0, 0).
  by [].
have [_ B_cE B_dE _] :=
  @initialized_computeBMatrices rat (exact_kernel rat)
    (unit_field_sensors rat) (zero_controller rat) field_neq0.
by split.
Defined.

Lemma computeGainMatrix_definite_witness :
  let c := unit_controller rat in
  K (computeGainMatrix (exact_kernel rat) c None).1 = K_spec c.
Proof.
have [_ KE _] :=
  @computeGainMatrix_definite rat (exact_kernel rat) (unit_controller rat)
    None (symmetric_pd1 _ _) (symmetric_psd0 _ _).
exact: KE.
Defined.

Lemma computePMatrix_refines_witness :
  let gsl := exact_kernel rat in
  let c := unit_controller rat in
  omap (fun r => P r.1.1) (computePMatrix gsl 1 c None None)
  = omap (P_spec (H_spec c)) (newton_iteration 1 (H_spec c) 1%:M).
Proof.
move=> gsl c.
have NL_unit : N_spec c + L_spec c \in unitmx.
  by rewrite unit_controller_NL unitmx1.
have units j : (j < 1)%N -> newton_iterate (H_spec c) j \in unitmx.
  by case: j => // _; exact: unitmx1.
have X1_unit S : newton_iteration 1 (H_spec c) 1%:M = Some S ->
    ulsubmx (H_spec c - S) \in unitmx.
  rewrite /= /newton_update invmx1 mul1mx unit_controller_H_squared.
  rewrite -mulr2n -scaler_nat scalerA mulVf ?pnatr_eq0 // scale1r.
  by case: ifP => // _ [<-]; exact: unit_controller_X1.
exact: (@computePMatrix_refines rat gsl 1 c c None None
          (unit_controller_constants rat) I (unit_controller_helpers rat)
          (unitmx1 _ _) NL_unit units X1_unit).
Defined.

(** The hypotheses of X23 hold for H = I, where H^2 - I = 0. *)
Lemma runNewtonRaphsonProcess_one_pass_witness :
  exists nr',
    runNewtonRaphsonProcess (exact_kernel rat) 1 1%:M 0 None
    = Some (2^-1 *: (1%:M + 1%:M *m 1%:M), nr').
Proof.
have close (i j : 'I_(6 + 6)) :
    `|((1%:M : 'M[rat]_(6 + 6)) *m 1%:M - 1%:M) i j| <= 2 / 1000.
  by rewrite mulmx1 subrr mxE normr0 divr_ge0 ?ler0n.
exact: (runNewtonRaphsonProcess_one_pass (exact_kernel rat) 0 None
          (ltnSn 0) close).
Defined.

(** C8 fails with positive definite costs too.  The pair
    A_d = diag (2000, 2000, 2000, 0, 0, 0), B_d = [I; 0] is stabilizable,
    Q = I and R = I are positive definite; H^2 is within 2e-3 of the
    identity, the loop leaves after one pass, the solver stores P = I, and
    the closed loop built from the resulting gain has the eigenvalue
    1000. *)
Lemma riccati_solver_stiff_not_stabilizing :
  let gsl := exact_kernel rat in
  let c := stiff_controller (2000 : rat) in
  [/\ stabilizable (A_d c) (B_d c), symmetric_pd (Q c), symmetric_pd (R c)
    & exists c' s' nr',
        [/\ computePMatrix gsl 1 c None None = Some (c', s', nr'),
            P c' = 1%:M
          & ~ schur_stable (closed_loop (computeGainMatrix gsl c' None).1)]].
Proof.
move=> gsl c; have a_ge : (1998 : rat) <= 2000 by rewrite ler_nat.
split.
- exact: stiff_stabilizable.
- exact: symmetric_pd1.
- exact: symmetric_pd1.
have [s' [nr' computed]] := stiff_P gsl a_ge.
exists (set_P c 1%:M), s', nr'; split; [exact: computed | exact: erefl | ].
by rewrite stiff_closed_loop; apply: stiff_unstable.
Qed.
